(** * Otako bot: a shallow embedding of [bot.py] and its verified properties

    The development follows the layout of the source file:
    - [PyText]: Python [str] values as sequences of code points, with
      [str.isspace], [str.strip], [str.split], [str.join], slicing and the
      reading of a text file by lines;
    - [PyFloat]: Python [float] values as IEEE 754 binary64 numbers;
    - [World]: the files the bot keeps and the trace of what it lets be
      observed (log lines, feed fetches, delivery attempts, sleeps);
    - [Helpers]: [load_all_sent_posts], [save_sent_post], [load_articles],
      [save_article], [shorten_text], [clean_description] and the
      arithmetic of [add_logo_to_image];
    - [Bot]: the two feed processors and [check_and_send_content], with
      explicit state passing; what lies outside the program (environment
      variables, feeds, HTML parser, image library, chat endpoint, clock) is
      gathered in a record of oracles;
    - [Views]: the loop body by cases; [Samples]: sample inputs.
    The properties follow the definitions. *)

From Stdlib Require Import ZArith NArith List Bool Lia String Ascii.
From Stdlib Require Import Floats.SpecFloat.
From stdpp Require Import base decidable countable list gmap strings.

Local Open Scope Z_scope.

(** ** Python text *)

Module PyText.

(** A Python [str] is a sequence of Unicode code points. *)
Definition pystr : Type := list N.

(** Literals of the source, which are all ASCII, are read off Rocq strings. *)
Definition py (s : string) : pystr :=
  List.map N_of_ascii (list_ascii_of_string s).

(** [str.isspace] on one code point: the white-space table of CPython
    ([_PyUnicode_IsWhitespace]), which [str.split()] and [str.strip()]
    use when called without arguments. *)
Definition isspace (c : N) : bool :=
  ((9 <=? c) && (c <=? 13) || (28 <=? c) && (c <=? 32)
   || (c =? 133) || (c =? 160) || (c =? 5760)
   || (8192 <=? c) && (c <=? 8202)
   || (c =? 8232) || (c =? 8233) || (c =? 8239) || (c =? 8287)
   || (c =? 12288))%N.

(** Truth value of a string: [bool(s)]. *)
Definition truthy (s : pystr) : bool :=
  match s with [] => false | _ => true end.

(** [s.lstrip()] *)
Fixpoint lstrip (s : pystr) : pystr :=
  match s with
  | [] => []
  | c :: rest => if isspace c then lstrip rest else s
  end.

(** [s.rstrip()] *)
Definition rstrip (s : pystr) : pystr := rev (lstrip (rev s)).

(** [s.strip()] *)
Definition strip (s : pystr) : pystr := rstrip (lstrip s).

(** [s.split()]: the maximal runs of non-white-space characters, in order.
    [cur] holds the characters of the word being read, last one first. *)
Fixpoint split_from (cur : pystr) (s : pystr) : list pystr :=
  match s with
  | [] => if truthy cur then [rev cur] else []
  | c :: rest =>
      if isspace c
      then (if truthy cur then rev cur :: split_from [] rest
            else split_from [] rest)
      else split_from (c :: cur) rest
  end.

Definition split (s : pystr) : list pystr := split_from [] s.

(** [sep.join(ws)] *)
Fixpoint join (sep : pystr) (ws : list pystr) : pystr :=
  match ws with
  | [] => []
  | [w] => w
  | w :: rest => w ++ sep ++ join sep rest
  end.

(** [l[:n]] for a Python integer [n]: a negative bound counts from the
    end of the list. *)
Definition slice_to {A} (l : list A) (n : Z) : list A :=
  if n <? 0
  then firstn (Z.to_nat (Z.max 0 (Z.of_nat (length l) + n))) l
  else firstn (Z.to_nat n) l.

(** The line feed, as a literal. *)
Definition LF : string := String (ascii_of_nat 10) EmptyString.

Definition all_space (s : pystr) : Prop := Forall (fun c => isspace c = true) s.

Definition no_space (s : pystr) : Prop := Forall (fun c => isspace c = false) s.

(** A string is trimmed when neither end is white space. *)
Definition trimmed (s : pystr) : Prop :=
  (forall c, head s = Some c -> isspace c = false)
  /\ (forall c, last s = Some c -> isspace c = false).

(** A string starts blank when it is empty or starts with white space. *)
Definition starts_blank (s : pystr) : Prop :=
  forall c, head s = Some c -> isspace c = true.

(** The white-space separated words of a text, as a relation: the text is
    white space, then a word (non-empty, free of white space), then a rest
    that is empty or starts with white space and holds the other words. *)
Inductive tokenizes : pystr -> list pystr -> Prop :=
| tok_nil sp : all_space sp -> tokenizes sp []
| tok_cons sp w rest ws :
    all_space sp -> w <> [] -> no_space w -> starts_blank rest ->
    tokenizes rest ws -> tokenizes (sp ++ w ++ rest) (w :: ws).

(** Reading a file opened in text mode translates every line end
    (CR LF, CR, LF) to LF: Python's universal newlines. *)
Fixpoint universal_newlines (s : pystr) : pystr :=
  match s with
  | [] => []
  | c :: rest =>
      if (c =? 13)%N
      then match rest with
           | d :: rest' =>
               if (d =? 10)%N then 10%N :: universal_newlines rest'
               else 10%N :: universal_newlines rest
           | [] => [10%N]
           end
      else c :: universal_newlines rest
  end.

(** The lines of a translated text, each with its terminating LF (the
    last line may lack it). [cur] is the line being read, last character
    first. *)
Fixpoint lines_from (cur : pystr) (s : pystr) : list pystr :=
  match s with
  | [] => if truthy cur then [rev cur] else []
  | c :: rest =>
      if (c =? 10)%N then rev (c :: cur) :: lines_from [] rest
      else lines_from (c :: cur) rest
  end.

(** [for line in f] over a file whose decoded content is [content]. *)
Definition file_lines (content : pystr) : list pystr :=
  lines_from [] (universal_newlines content).

(** Universal newlines as a relation between the content of the file and
    the text that is read: CR LF becomes LF, a CR that no LF follows
    becomes LF, every other character is kept. *)
Inductive translates : pystr -> pystr -> Prop :=
| translates_nil : translates [] []
| translates_crlf s t :
    translates s t -> translates (13%N :: 10%N :: s) (10%N :: t)
| translates_cr s t :
    head s <> Some 10%N -> translates s t ->
    translates (13%N :: s) (10%N :: t)
| translates_char c s t :
    c <> 13%N -> translates s t -> translates (c :: s) (c :: t).

(** The lines of a text, as a relation: a line runs up to and including
    the next line feed and holds no other line feed; what follows the last
    line feed is a line of its own when it is not empty. White space other
    than the line feed does not end a line. *)
Inductive splits_into_lines : pystr -> list pystr -> Prop :=
| lines_none : splits_into_lines [] []
| lines_last body :
    body <> [] -> Forall (fun c => c <> 10%N) body ->
    splits_into_lines body [body]
| lines_cons body rest ls :
    Forall (fun c => c <> 10%N) body -> splits_into_lines rest ls ->
    splits_into_lines (body ++ 10%N :: rest) ((body ++ [10%N]) :: ls).

End PyText.

Import PyText.


(** ** Python floats

    Python's [float] is IEEE 754 binary64; its operations are those of the
    Standard Library's executable specification [SpecFloat] at precision 53
    and maximal exponent 1024. *)

Module PyFloat.

Definition prec : Z := 53.
Definition emax : Z := 1024.

(** [float(n)] for an integer [n]: the nearest binary64, which is how an
    integer operand of a float operation is converted. *)
Definition of_int (n : Z) : spec_float := binary_normalize prec emax n 0 false.

(** [x * y] on floats. *)
Definition mul (x y : spec_float) : spec_float := SFmul prec emax x y.

(** [a / b] on integers (true division): [None] is [ZeroDivisionError].
    The operands of the source are image sizes, below [2^53], for which the
    correctly rounded quotient is the quotient of the two floats. *)
Definition truediv (a b : Z) : option spec_float :=
  if b =? 0 then None else Some (SFdiv prec emax (of_int a) (of_int b)).

(** [int(x)]: truncation towards zero; [None] for infinities and NaN,
    on which [int] raises. *)
Definition to_int (x : spec_float) : option Z :=
  match x with
  | S754_zero _ => Some 0
  | S754_finite s m e => Some (cond_Zopp s (Z.shiftl (Zpos m) e))
  | S754_infinity _ | S754_nan => None
  end.

(** The literal [0.10]: [0x1.999999999999ap-4]. *)
Definition lit_0_10 : spec_float := S754_finite false 7205759403792794 (-56).

(** The literal [0.20]: [0x1.999999999999ap-3]. *)
Definition lit_0_20 : spec_float := S754_finite false 7205759403792794 (-55).

End PyFloat.

(** ** The world the bot runs in *)

Module World.

(** A file that exists either holds a content that can be read back or
    one that cannot (undecodable text, malformed JSON). A file that does
    not exist is absent from the file map. Opening a file for writing and
    writing to it succeed: the texts that are written are taken to hold no
    lone surrogate, which the UTF-8 encoder refuses. *)
Inductive stored (A : Type) : Type :=
| Unreadable
| Readable (content : A).
Arguments Unreadable {A}.
Arguments Readable {A} content.

(** What [json.load] returns for a file that can be parsed: any JSON
    value, as the Python object it is read to. The members of an object
    are the items of the [dict], each key once, in their order. A record
    file is kept as the value it holds: [json.dump] writes a loaded value
    back and [json.load] reads back what [json.dump] wrote. *)
#[warnings="-register-all"]
Inductive json : Type :=
| JNull
| JBool (b : bool)
| JInt (n : Z)
| JFloat (x : spec_float)
| JString (s : pystr)
| JArray (items : list json)
| JObject (members : list (pystr * json)).

(** An article record as the processors build it: the [dict] literal of
    lines 222 to 231 and 330 to 339, whose values are strings or [None]. *)
Record article : Type := mk_article {
  a_id : option pystr;
  a_title : option pystr;
  a_url : option pystr;
  a_image_url : option pystr;
  a_description : option pystr;
  a_date : option pystr;
  a_category : option pystr;
  a_saved_at : option pystr
}.

(** A string or [None] as a JSON value. *)
Definition json_of_str (o : option pystr) : json :=
  match o with Some s => JString s | None => JNull end.

(** The [dict] of an article record, with its keys in the order of the
    literal. *)
Definition to_json (a : article) : json :=
  JObject [ (py "id", json_of_str (a_id a));
            (py "title", json_of_str (a_title a));
            (py "url", json_of_str (a_url a));
            (py "image_url", json_of_str (a_image_url a));
            (py "description", json_of_str (a_description a));
            (py "date", json_of_str (a_date a));
            (py "category", json_of_str (a_category a));
            (py "saved_at", json_of_str (a_saved_at a)) ].

Inductive feed_kind : Type := Crunchyroll | YouTube.

Inductive level : Type := INFO | WARNING | ERROR.

(** The log lines of the source, by their format string; exception texts
    and elapsed times are left out. *)
Inductive log_msg : Type :=
| ErrorReading (file : string)
| ErrorWriting (file : string)
| ErrorAddingLogo
| AlreadySent (k : feed_kind) (title : pystr)
| NewFound (k : feed_kind) (title : pystr)
| FailedToSend (k : feed_kind)
| ErrorParsingFeed (k : feed_kind)
| NoEntriesFound (k : feed_kind)
| CheckCompleted (k : feed_kind) (found : nat)
| FatalNotSet
| StartingRun
| RunFinished.

(** What [add_logo_to_image] builds: the source image with the logo resized
    to [logo_w] x [logo_h] and pasted at [(pos_x, pos_y)]. *)
Record composition : Type := mk_composition {
  src_url : pystr;
  src_w : Z;
  src_h : Z;
  logo_w : Z;
  logo_h : Z;
  pos_x : Z;
  pos_y : Z
}.

(** A call of the chat endpoint: [bot.send_photo] with the composited image
    or with the image URL, or [bot.send_message]. The chat identifier and
    the parse mode are the same in every call. *)
Inductive delivery : Type :=
| SendPhotoImage (img : composition) (caption : pystr)
| SendPhotoUrl (url : pystr) (caption : pystr)
| SendMessage (text : pystr).

(** Observable events, oldest first. [Send d ok] is one delivery attempt;
    [ok] tells whether the call returned ([true]) or raised ([false]). *)
Inductive event : Type :=
| Log (l : level) (m : log_msg)
| Fetch (url : string)
| Send (d : delivery) (ok : bool)
| Sleep (seconds : Z).

Record world : Type := mk_world {
  sent_files : gmap string (stored pystr);
  article_files : gmap string (stored json);
  trace : list event
}.

Definition emit (ev : event) (w : world) : world :=
  mk_world (sent_files w) (article_files w) (trace w ++ [ev]).

Definition log (l : level) (m : log_msg) (w : world) : world :=
  emit (Log l m) w.

Definition write_sent (file : string) (content : pystr) (w : world) : world :=
  mk_world (<[file := Readable content]> (sent_files w)) (article_files w)
           (trace w).

Definition write_articles (file : string) (v : json) (w : world) : world :=
  mk_world (sent_files w) (<[file := Readable v]> (article_files w)) (trace w).

(** The delivery attempts, sleeps and fetches of a trace. *)
Definition is_send (ev : event) : bool :=
  match ev with Send _ _ => true | _ => false end.
Definition is_sleep (ev : event) : bool :=
  match ev with Sleep _ => true | _ => false end.
Definition is_fetch (ev : event) : bool :=
  match ev with Fetch _ => true | _ => false end.

Definition is_log (ev : event) : bool :=
  match ev with Log _ _ => true | _ => false end.

Definition sends (tr : list event) : list event := List.filter is_send tr.
Definition sleeps (tr : list event) : list event := List.filter is_sleep tr.
Definition fetches (tr : list event) : list event := List.filter is_fetch tr.

End World.

Import World.

(** ** Helper functions of the source *)

Module Helpers.

(** [load_all_sent_posts(sent_file)] *)
Definition load_all_sent_posts (sent_file : string) (w : world)
  : gset pystr * world :=
  match sent_files w !! sent_file with
  | None => (∅, write_sent sent_file [] w)
  | Some Unreadable => (∅, log ERROR (ErrorReading sent_file) w)
  | Some (Readable content) =>
      (list_to_set
         (List.map strip
            (List.filter (fun line => truthy (strip line))
                         (file_lines content))),
       w)
  end.

(** [save_sent_post(post_id, sent_file)] *)
Definition save_sent_post (post_id : pystr) (sent_file : string) (w : world)
  : world :=
  match sent_files w !! sent_file with
  | None => write_sent sent_file (post_id ++ py LF) w
  | Some Unreadable => log ERROR (ErrorWriting sent_file) w
  | Some (Readable content) =>
      write_sent sent_file (post_id ++ py LF ++ universal_newlines content) w
  end.

(** [load_articles(articles_file)]: whatever value the file holds is
    returned as it is. *)
Definition load_articles (articles_file : string) (w : world)
  : json * world :=
  match article_files w !! articles_file with
  | None => (JArray [], write_articles articles_file (JArray []) w)
  | Some Unreadable => (JArray [], log ERROR (ErrorReading articles_file) w)
  | Some (Readable v) => (v, w)
  end.

(** [v.get(key)]: the value of the key, Python's [None] for a key that is
    missing; the outer [None] is the [AttributeError] of a value that is
    not a [dict]. *)
Definition py_get (key : pystr) (v : json) : option json :=
  match v with
  | JObject members =>
      Some (default JNull
              (snd <$> List.find (fun m => bool_decide (fst m = key)) members))
  | _ => None
  end.

(** [x == id] for a loaded value [x] and an id that is a string or
    [None]: only an equal string equals a string, and only [None] equals
    [None]. *)
Definition id_eq (x : json) (id : option pystr) : bool :=
  match x, id with
  | JString s, Some s' => bool_decide (s = s')
  | JNull, None => true
  | _, _ => false
  end.

(** [article.get("id") == article_data.get("id")] for an element [item]
    of the loaded list; [None] when the element is not a [dict] and
    [.get] raises. *)
Definition same_id (item : json) (article_data : article) : option bool :=
  x ← py_get (py "id") item; Some (id_eq x (a_id article_data)).

(** How the loop of lines 109 to 111 ends: it returns at a record with
    the id, runs to its end, or raises. *)
Inductive scan : Type := Found | NotFound | Failed.

Fixpoint scan_ids (article_data : article) (articles : list json) : scan :=
  match articles with
  | [] => NotFound
  | item :: rest =>
      match same_id item article_data with
      | None => Failed
      | Some true => Found
      | Some false => scan_ids article_data rest
      end
  end.

(** [save_article(article_data, articles_file)]. Whatever raises between
    the loading and the writing is caught by the handler of lines 119 and
    120: an element of the list that is not a [dict] has no [.get]; a
    [dict] or a string is iterated by keys or characters, which are strings
    without [.get], and has no [.insert] when it is empty; a number, a
    boolean or [None] cannot be iterated. *)
Definition save_article (article_data : article) (articles_file : string)
    (w : world) : world :=
  let '(articles, w1) := load_articles articles_file w in
  match articles with
  | JArray items =>
      match scan_ids article_data items with
      | Found => w1
      | NotFound =>
          write_articles articles_file (JArray (to_json article_data :: items))
                         w1
      | Failed => log ERROR (ErrorWriting articles_file) w1
      end
  | _ => log ERROR (ErrorWriting articles_file) w1
  end.

(** [shorten_text(text, words=25)]; an absent text is [None]. *)
Definition shorten_text (text : option pystr) (words : Z) : pystr :=
  match text with
  | None => []
  | Some t =>
      if negb (truthy t) then []
      else
        let w := split t in
        let short := join (py " ") (slice_to w words) in
        if Z.of_nat (length w) >? words then short ++ py "..." else short
  end.

(** [clean_description(description_html)]. The HTML parser is an external
    library: [get_text h] stands for
    [BeautifulSoup(h, "html.parser").get_text()]. *)
Definition clean_description (get_text : pystr -> pystr)
    (description_html : option pystr) : pystr :=
  match description_html with
  | None => []
  | Some h => if negb (truthy h) then [] else strip (get_text h)
  end.

Definition LOGO_MIN_WIDTH_RATIO : spec_float := PyFloat.lit_0_10.
Definition LOGO_MAX_WIDTH_RATIO : spec_float := PyFloat.lit_0_20.
Definition LOGO_MARGIN : Z := 10.

(** The width of the resized logo:
    [int(pw * LOGO_MIN_WIDTH_RATIO) if pw < 600 else
     int(pw * LOGO_MAX_WIDTH_RATIO)]. *)
Definition logo_width (pw : Z) : option Z :=
  if pw <? 600
  then PyFloat.to_int (PyFloat.mul (PyFloat.of_int pw) LOGO_MIN_WIDTH_RATIO)
  else PyFloat.to_int (PyFloat.mul (PyFloat.of_int pw) LOGO_MAX_WIDTH_RATIO).

(** The height of the resized logo:
    [logo_ratio = lw / logo.width; lh = int(logo.height * logo_ratio)]. *)
Definition logo_height (lw logo_width0 logo_height0 : Z) : option Z :=
  logo_ratio ← PyFloat.truediv lw logo_width0;
  PyFloat.to_int (PyFloat.mul (PyFloat.of_int logo_height0) logo_ratio).

(** Lines 149 to 158 of [add_logo_to_image]: the size of the resized logo
    and the place it is pasted at, for a source image of size [pw] x [ph]
    and a logo file of size [logo_width0] x [logo_height0]. [None] when the
    arithmetic raises. *)
Definition logo_placement (url : pystr) (pw ph logo_width0 logo_height0 : Z)
  : option composition :=
  lw ← logo_width pw;
  lh ← logo_height lw logo_width0 logo_height0;
  Some (mk_composition url pw ph lw lh (pw - lw - LOGO_MARGIN) LOGO_MARGIN).

End Helpers.

Import Helpers.

(** ** The feed processors *)

Module Bot.

(** A feed entry as [feedparser] returns it: any attribute may be missing,
    and reading a missing attribute raises. [e_media_thumbnail] is the list
    of thumbnail dictionaries, each with or without a ['url'] key. *)
Record entry : Type := mk_entry {
  e_id : option pystr;
  e_yt_videoid : option pystr;
  e_title : option pystr;
  e_media_thumbnail : option (list (option pystr));
  e_description : option pystr;
  e_published : option pystr;
  e_updated : option pystr;
  e_link : option pystr
}.

(** Everything outside the program. The calls that may give different
    answers at different times take the trace so far. *)
Record environment : Type := mk_environment {
  TELEGRAM_TOKEN : option pystr;           (* os.getenv("TELEGRAM_TOKEN") *)
  TELEGRAM_CHAT_ID : option pystr;         (* os.getenv("TELEGRAM_CHAT_ID") *)
  feedparser_parse : string -> option (list entry);
                                           (* [None]: the call raises *)
  get_text : pystr -> pystr;               (* BeautifulSoup(..).get_text() *)
  find_img_src : pystr -> option pystr;    (* first <img src> of an HTML text *)
  now_isoformat : list event -> pystr;     (* datetime.now().isoformat() *)
  logo_exists : bool;                      (* os.path.exists(LOGO_PATH) *)
  fetch_image : list event -> pystr -> option (Z * Z);
                       (* size of the downloaded image; [None]: it raises *)
  open_logo : option (Z * Z);
                       (* size of the logo image; [None]: it raises *)
  render : composition -> bool;
                       (* resize, paste and save return ([true]) or raise *)
  bot_send : list event -> delivery -> bool
                       (* the endpoint call returns ([true]) or raises *)
}.

Definition MAX_ENTRIES_TO_CHECK : nat := 5.

Definition CRUNCHYROLL_RSS_URL : string :=
  "https://cr-news-api-service.prd.crunchyrollsvc.com/v1/ar-SA/rss".
Definition CRUNCHYROLL_SENT_FILE : string := "sent_posts.txt".
Definition CRUNCHYROLL_ARTICLES_FILE : string := "crunchyroll_articles.json".
Definition YOUTUBE_RSS_URL : string :=
  "https://www.youtube.com/feeds/videos.xml?channel_id=UC1WGYjPeHHc_3nRXqbW3OcQ".
Definition YOUTUBE_SENT_FILE : string := "sent_videos.txt".
Definition YOUTUBE_ARTICLES_FILE : string := "youtube_videos.json".

Definition rss_url (k : feed_kind) : string :=
  match k with Crunchyroll => CRUNCHYROLL_RSS_URL | YouTube => YOUTUBE_RSS_URL end.
Definition sent_file (k : feed_kind) : string :=
  match k with
  | Crunchyroll => CRUNCHYROLL_SENT_FILE
  | YouTube => YOUTUBE_SENT_FILE
  end.
Definition articles_file (k : feed_kind) : string :=
  match k with
  | Crunchyroll => CRUNCHYROLL_ARTICLES_FILE
  | YouTube => YOUTUBE_ARTICLES_FILE
  end.
Definition category (k : feed_kind) : pystr :=
  match k with
  | Crunchyroll => py "Crunchyroll News"
  | YouTube => py "YouTube Video"
  end.

(** Truth value of an optional string: [None] and [""] are false. *)
Definition truthy_opt (o : option pystr) : bool :=
  match o with Some s => truthy s | None => false end.

(** The state of one run of a processor's loop: the world, the in-memory
    set [sent_posts] and the counter [new_posts_found]. *)
Record loop_state : Type := mk_loop_state {
  ls_world : world;
  ls_sent : gset pystr;
  ls_found : nat
}.

Definition with_world (st : loop_state) (w : world) : loop_state :=
  mk_loop_state w (ls_sent st) (ls_found st).

(** One iteration of the loop either reaches the next entry or raises an
    exception that no handler inside the loop catches. *)
Inductive outcome : Type :=
| Next (st : loop_state)
| Raise (st : loop_state).

Definition state_of (o : outcome) : loop_state :=
  match o with Next st | Raise st => st end.

(** The events that lead from the state [st] to the later state [st']. *)
Definition step_events (st st' : loop_state) : list event :=
  drop (length (trace (ls_world st))) (trace (ls_world st')).

Section Processor.

Variable E : environment.

(** [add_logo_to_image(image_url)]: the composited image, or [None]. *)
Definition add_logo_to_image (image_url : pystr) (w : world)
  : option composition * world :=
  if negb (logo_exists E) then (None, w)
  else
    match
      '(pw, ph) ← fetch_image E (trace w) image_url;
      '(logo_width0, logo_height0) ← open_logo E;
      c ← logo_placement image_url pw ph logo_width0 logo_height0;
      if render E c then Some c else None
    with
    | Some c => (Some c, w)
    | None => (None, log ERROR ErrorAddingLogo w)
    end.

(** [entry.id] for the news feed, [entry.yt_videoid] for the videos. *)
Definition entry_key (k : feed_kind) (e : entry) : option pystr :=
  match k with Crunchyroll => e_id e | YouTube => e_yt_videoid e end.

(** [entry.media_thumbnail[0]['url'] if hasattr(entry, 'media_thumbnail')
    and entry.media_thumbnail else None]; the outer [None] is the
    [KeyError] of a thumbnail without ['url']. *)
Definition thumbnail_url (e : entry) : option (option pystr) :=
  match e_media_thumbnail e with
  | Some (t :: _) => u ← t; Some (Some u)
  | Some [] | None => Some None
  end.

(** The image URL of an entry. The news processor falls back on the first
    image of the description when there is no usable thumbnail. *)
Definition image_url_of (k : feed_kind) (e : entry)
  : option (option pystr) :=
  image_url ← thumbnail_url e;
  match k with
  | YouTube => Some image_url
  | Crunchyroll =>
      if negb (truthy_opt image_url)
      then match e_description e with
           | Some d =>
               match find_img_src E d with
               | Some src => Some (Some src)
               | None => Some image_url
               end
           | None => Some image_url
           end
      else Some image_url
  end.

(** [entry.published], else [entry.updated], else [None]. *)
Definition pub_date_of (e : entry) : option pystr :=
  match e_published e with
  | Some d => Some d
  | None => e_updated e
  end.

(** The URL stored in the record: the news processor tolerates a missing
    link, the video processor reads [entry.link] and raises without it. *)
Definition url_of (k : feed_kind) (e : entry) : option (option pystr) :=
  match k with
  | Crunchyroll => Some (e_link e)
  | YouTube => video_url ← e_link e; Some (Some video_url)
  end.

(** The caption of the message. *)
Definition caption_of (k : feed_kind) (title short_desc : pystr)
    (url : option pystr) : pystr :=
  match k with
  | Crunchyroll =>
      [128240%N] ++ py " *" ++ title ++ py "*" ++ py LF ++ py LF
        ++ short_desc
  | YouTube =>
      [127916%N] ++ py " *" ++ title ++ py "*" ++ py LF ++ py LF
        ++ short_desc ++ py LF ++ py LF ++ py "[Watch on YouTube]("
        ++ default [] url ++ py ")"
  end.

(** From the extraction of the image URL to the construction of the
    record and the caption (lines 197 to 239 and 312 to 347, without the
    call of [save_article]): [None] when an attribute is missing. *)
Definition normalize (k : feed_kind) (e : entry) (post_id title : pystr)
    (tr : list event) : option (article * option pystr * pystr) :=
  match k with
  | Crunchyroll =>
      image_url ← image_url_of k e;
      description ← e_description e;
      let full_description := clean_description (get_text E) (Some description) in
      url ← url_of k e;
      Some (mk_article (Some post_id) (Some title) url image_url
              (Some full_description) (pub_date_of e) (Some (category k))
              (Some (now_isoformat E tr)),
            image_url,
            caption_of k title (shorten_text (Some full_description) 25) url)
  | YouTube =>
      image_url ← image_url_of k e;
      url ← url_of k e;
      description ← e_description e;
      let full_description := clean_description (get_text E) (Some description) in
      Some (mk_article (Some post_id) (Some title) url image_url
              (Some full_description) (pub_date_of e) (Some (category k))
              (Some (now_isoformat E tr)),
            image_url,
            caption_of k title (shorten_text (Some full_description) 25) url)
  end.

(** The request the inner [try] block sends, with the world after the
    attempt to add the logo. *)
Definition prepare_delivery (image_url : option pystr) (caption : pystr)
    (w : world) : delivery * world :=
  match image_url with
  | Some u =>
      if truthy u
      then match add_logo_to_image u w with
           | (Some img, w') => (SendPhotoImage img caption, w')
           | (None, w') => (SendPhotoUrl u caption, w')
           end
      else (SendMessage caption, w)
  | None => (SendMessage caption, w)
  end.

(** The inner [try] block of the loop body (lines 241 to 276 and 349 to
    384): delivery, then marking the id as sent, then the delay. *)
Definition deliver (k : feed_kind) (i : nat) (post_id : pystr)
    (image_url : option pystr) (caption : pystr) (st : loop_state)
  : loop_state :=
  let '(d, w1) := prepare_delivery image_url caption (ls_world st) in
  if bot_send E (trace w1) d
  then
    let w2 := emit (Send d true) w1 in
    let w3 := save_sent_post post_id (sent_file k) w2 in
    let w4 := if (i <? MAX_ENTRIES_TO_CHECK - 1)%nat
              then emit (Sleep 2) w3 else w3 in
    mk_loop_state w4 ({[post_id]} ∪ ls_sent st) (ls_found st)
  else
    with_world st (log ERROR (FailedToSend k) (emit (Send d false) w1)).

(** The state once a new entry has been announced and counted. *)
Definition found_state (k : feed_kind) (title : pystr) (st : loop_state)
  : loop_state :=
  mk_loop_state (log INFO (NewFound k title) (ls_world st))
                (ls_sent st) (S (ls_found st)).

(** The body of the [for] loop for the entry [e] at index [i]. *)
Definition process_entry (k : feed_kind) (i : nat) (e : entry)
    (st : loop_state) : outcome :=
  match entry_key k e with
  | None => Raise st
  | Some post_id =>
      match e_title e with
      | None => Raise st
      | Some title =>
          if bool_decide (post_id ∈ ls_sent st)
          then Next (with_world st (log INFO (AlreadySent k title) (ls_world st)))
          else
            let st1 := found_state k title st in
            match normalize k e post_id title (trace (ls_world st1)) with
            | None => Raise st1
            | Some (article_data, image_url, caption) =>
                let w2 := save_article article_data (articles_file k)
                                       (ls_world st1) in
                Next (deliver k i post_id image_url caption
                              (with_world st1 w2))
            end
      end
  end.

(** [for i, entry in enumerate(entries): ...] from index [i] on. The
    boolean tells whether the loop ran to its end ([true]) or was left
    by an exception ([false]). *)
Fixpoint process_entries (k : feed_kind) (i : nat) (entries : list entry)
    (st : loop_state) : loop_state * bool :=
  match entries with
  | [] => (st, true)
  | e :: rest =>
      match process_entry k i e st with
      | Next st' => process_entries k (S i) rest st'
      | Raise st' => (st', false)
      end
  end.

(** [check_and_send_crunchyroll_news(bot)] and
    [check_and_send_youtube_video(bot)], which differ in the feed only. *)
Definition check_and_send_feed (k : feed_kind) (w : world) : world :=
  let '(sent_posts, w1) := load_all_sent_posts (sent_file k) w in
  let w2 := emit (Fetch (rss_url k)) w1 in
  match feedparser_parse E (rss_url k) with
  | None =>
      log INFO (CheckCompleted k 0) (log ERROR (ErrorParsingFeed k) w2)
  | Some [] => log WARNING (NoEntriesFound k) w2
  | Some entries =>
      match process_entries k 0 (firstn MAX_ENTRIES_TO_CHECK entries)
              (mk_loop_state w2 sent_posts 0) with
      | (st, true) => log INFO (CheckCompleted k (ls_found st)) (ls_world st)
      | (st, false) =>
          log INFO (CheckCompleted k (ls_found st))
              (log ERROR (ErrorParsingFeed k) (ls_world st))
      end
  end.

Definition check_and_send_crunchyroll_news : world -> world :=
  check_and_send_feed Crunchyroll.

Definition check_and_send_youtube_video : world -> world :=
  check_and_send_feed YouTube.

(** [check_and_send_content()] *)
Definition check_and_send_content (w : world) : world :=
  if negb (truthy_opt (TELEGRAM_TOKEN E))
     || negb (truthy_opt (TELEGRAM_CHAT_ID E))
  then log ERROR FatalNotSet w
  else
    let w1 := log INFO StartingRun w in
    let w2 := check_and_send_crunchyroll_news w1 in
    let w3 := check_and_send_youtube_video w2 in
    log INFO RunFinished w3.

End Processor.

End Bot.

Import Bot.

(** ** The loop body by cases

    What one iteration of the loop can do, by what it lets be observed:
    the outcome, the events it adds, the files and the in-memory set. *)

Module Views.

Definition only_logs (evs : list event) : Prop :=
  Forall (fun ev => is_log ev = true) evs.

(** The records a processor would load from a record file: the elements
    of the list, and none when the file holds another value. *)
Definition records (file : string) (w : world) : list json :=
  match fst (load_articles file w) with
  | JArray items => items
  | _ => []
  end.

(** The value is a [dict]. *)
Definition is_object (v : json) : Prop := exists members, v = JObject members.



(** The delay that follows a delivery at index [i]. *)
Definition delay_after (i : nat) : list event :=
  if (i <? MAX_ENTRIES_TO_CHECK - 1)%nat then [Sleep 2] else [].

Inductive step_case (E : environment) (k : feed_kind) (i : nat) (e : entry)
    (st : loop_state) : outcome -> Prop :=
| case_missing :
    entry_key k e = None \/ e_title e = None ->
    step_case E k i e st (Raise st)
| case_seen post_id title :
    entry_key k e = Some post_id -> e_title e = Some title ->
    post_id ∈ ls_sent st ->
    step_case E k i e st
      (Next (with_world st (log INFO (AlreadySent k title) (ls_world st))))
| case_abandoned post_id title :
    entry_key k e = Some post_id -> e_title e = Some title ->
    post_id ∉ ls_sent st ->
    normalize E k e post_id title
      (trace (log INFO (NewFound k title) (ls_world st))) = None ->
    step_case E k i e st (Raise (found_state k title st))
| case_failed post_id title a img cap d logs0 logs st_saved st' :
    entry_key k e = Some post_id -> e_title e = Some title ->
    post_id ∉ ls_sent st ->
    normalize E k e post_id title
      (trace (log INFO (NewFound k title) (ls_world st)))
    = Some (a, img, cap) ->
    st_saved
    = with_world (found_state k title st)
        (save_article a (articles_file k)
                      (ls_world (found_state k title st))) ->
    st' = deliver E k i post_id img cap st_saved ->
    trace (ls_world st_saved)
    = trace (ls_world st) ++ Log INFO (NewFound k title) :: logs0 ->
    trace (ls_world st')
    = trace (ls_world st_saved)
      ++ logs ++ [Send d false; Log ERROR (FailedToSend k)] ->
    only_logs logs0 -> only_logs logs ->
    sent_files (ls_world st') = sent_files (ls_world st) ->
    article_files (ls_world st') = article_files (ls_world st_saved) ->
    ls_sent st' = ls_sent st ->
    step_case E k i e st (Next st')
| case_delivered post_id title a img cap d logs0 logs logs' st_saved st' :
    entry_key k e = Some post_id -> e_title e = Some title ->
    post_id ∉ ls_sent st ->
    normalize E k e post_id title
      (trace (log INFO (NewFound k title) (ls_world st)))
    = Some (a, img, cap) ->
    st_saved
    = with_world (found_state k title st)
        (save_article a (articles_file k)
                      (ls_world (found_state k title st))) ->
    st' = deliver E k i post_id img cap st_saved ->
    trace (ls_world st_saved)
    = trace (ls_world st) ++ Log INFO (NewFound k title) :: logs0 ->
    trace (ls_world st')
    = trace (ls_world st_saved)
      ++ logs ++ Send d true :: logs' ++ delay_after i ->
    only_logs logs0 -> only_logs logs -> only_logs logs' ->
    ls_sent st' = {[post_id]} ∪ ls_sent st ->
    step_case E k i e st (Next st').

End Views.

Import Views.

(** ** Sample inputs *)

Module Samples.

(** An environment with no logo file, in which the endpoint accepts a
    request when [accepts] says so and the feeds hold [feed]. *)
Definition sample_env (feed : list entry) (accepts : delivery -> bool)
  : environment :=
  mk_environment (Some (py "token")) (Some (py "chat"))
    (fun _ => Some feed) (fun h => h) (fun _ => None) (fun _ => py "now")
    false (fun _ _ => None) None (fun _ => true) (fun _ d => accepts d).

(** An environment with a logo file of [w0] x [h0] pixels, in which every
    image that is downloaded has [pw] x [ph] pixels and the image library
    resizes a logo to a size with pixels only. *)
Definition studio (pw ph w0 h0 : Z) : environment :=
  mk_environment (Some (py "token")) (Some (py "chat"))
    (fun _ => Some []) (fun h => h) (fun _ => None) (fun _ => py "now")
    true (fun _ _ => Some (pw, ph)) (Some (w0, h0))
    (fun c => (0 <? logo_w c) && (0 <? logo_h c)) (fun _ _ => true).

Definition news (id title : string) : entry :=
  mk_entry (Some (py id)) None (Some (py title)) None (Some (py "text"))
           None None None.

Definition untitled (id : string) : entry :=
  mk_entry (Some (py id)) None None None (Some (py "text")) None None None.

Definition empty_world : world := mk_world ∅ ∅ [].

(** A world whose news seen-file holds the ids [a] and [b]. *)
Definition seen_world : world :=
  mk_world {[ CRUNCHYROLL_SENT_FILE := Readable (py "a" ++ py LF ++ py "b" ++ py LF) ]}
           ∅ [].

Definition start (w : world) (seen : list pystr) : loop_state :=
  mk_loop_state w (list_to_set seen) 0.

End Samples.

Import Samples.

(** ** Further notions used by the properties *)

Module Notions.

(** An id that fits on one line: no line feed and no carriage return. *)
Definition no_linebreak (s : pystr) : Prop :=
  Forall (fun c => c <> 10%N /\ c <> 13%N) s.


(** The image library resizes to a size with pixels only:
    [Image.resize] raises [ValueError] for a side below one pixel, so that
    the rendering of a composition can succeed only when the logo has
    pixels. *)
Definition resize_needs_pixels (E : environment) : Prop :=
  forall c, render E c = true -> 0 < logo_w c /\ 0 < logo_h c.

(** The caption or text that a delivery carries. *)
Definition delivery_text (d : delivery) : pystr :=
  match d with
  | SendPhotoImage _ caption | SendPhotoUrl _ caption => caption
  | SendMessage text => text
  end.

(** The first thumbnail of the entry has no ['url'] key. *)
Definition thumbnail_without_url (e : entry) : Prop :=
  exists rest, e_media_thumbnail e = Some (None :: rest).

(** The entry [e] has a title and an id that is in the set [s]. *)
Definition seen_in (k : feed_kind) (s : gset pystr) (e : entry) : Prop :=
  exists post_id title,
    entry_key k e = Some post_id /\ e_title e = Some title /\ post_id ∈ s.

(** A word: non-empty and free of white space. *)
Definition word (w : pystr) : Prop := w <> [] /\ no_space w.

End Notions.

Import Notions.

(** * Properties *)

(** ** Text *)

Module PyTextFacts.

Lemma all_space_nil : all_space [].
Proof. constructor. Qed.

Lemma all_space_cons c s :
  isspace c = true -> all_space s -> all_space (c :: s).
Proof. intros Hc Hs. constructor; assumption. Qed.

Lemma all_space_app s t : all_space s -> all_space t -> all_space (s ++ t).
Proof. unfold all_space. rewrite Forall_app. tauto. Qed.

Lemma all_space_rev s : all_space s -> all_space (rev s).
Proof.
  unfold all_space. rewrite !Forall_forall. intros H c Hc.
  apply H. rewrite list_elem_of_In in Hc |- *. now apply in_rev.
Qed.

(** [lstrip] removes a white-space prefix and stops at the first character
    that is not white space. *)
Lemma lstrip_decompose s :
  exists sp, s = sp ++ lstrip s /\ all_space sp.
Proof.
  induction s as [|c s [sp [Heq Hsp]]]; simpl.
  - exists []. split; [reflexivity | apply all_space_nil].
  - destruct (isspace c) eqn:Hc.
    + exists (c :: sp). split.
      * simpl. congruence.
      * now apply all_space_cons.
    + exists []. split; [reflexivity | apply all_space_nil].
Qed.

Lemma lstrip_head s c : head (lstrip s) = Some c -> isspace c = false.
Proof.
  induction s as [|d s IH]; simpl; [discriminate|].
  destruct (isspace d) eqn:Hd; [exact IH|].
  simpl. intros [= <-]. exact Hd.
Qed.

Lemma lstrip_app s t :
  lstrip (s ++ t) = match lstrip s with [] => lstrip t | _ => lstrip s ++ t end.
Proof.
  induction s as [|c s IH]; simpl.
  - reflexivity.
  - destruct (isspace c); [exact IH | reflexivity].
Qed.

Lemma lstrip_all_space s : all_space s -> lstrip s = [].
Proof.
  induction 1 as [|c s Hc _ IH]; simpl; [reflexivity|].
  now rewrite Hc.
Qed.

Lemma head_rev_last {A} (l : list A) : head (rev l) = last l.
Proof.
  induction l as [|a l IH] using rev_ind; [reflexivity|].
  rewrite rev_app_distr, last_snoc. reflexivity.
Qed.

Lemma last_rev_head {A} (l : list A) : last (rev l) = head l.
Proof. rewrite <- head_rev_last, rev_involutive. reflexivity. Qed.

Lemma rstrip_decompose s :
  exists sp, s = rstrip s ++ sp /\ all_space sp.
Proof.
  unfold rstrip. destruct (lstrip_decompose (rev s)) as [sp [Heq Hsp]].
  exists (rev sp). split; [|now apply all_space_rev].
  rewrite <- rev_app_distr, <- Heq, rev_involutive. reflexivity.
Qed.

Lemma rstrip_last s c : last (rstrip s) = Some c -> isspace c = false.
Proof. unfold rstrip. rewrite last_rev_head. apply lstrip_head. Qed.

(** Stripping on the right keeps a first character that is not white
    space. *)
Lemma rstrip_head s c :
  (forall d, head s = Some d -> isspace d = false) ->
  head (rstrip s) = Some c -> isspace c = false.
Proof.
  intros Hs. destruct s as [|d s]; [discriminate|].
  specialize (Hs d eq_refl).
  unfold rstrip. simpl rev. rewrite lstrip_app.
  assert (Hd : lstrip [d] = [d]) by (simpl; now rewrite Hs).
  destruct (lstrip (rev s)) as [|x u] eqn:Hu.
  - rewrite Hd. simpl. intros [= <-]. exact Hs.
  - rewrite <- Hu. rewrite rev_app_distr. simpl. intros [= <-]. exact Hs.
Qed.

(** [strip] removes white space at both ends and nothing else. *)
Lemma strip_decompose s :
  exists l r, s = l ++ strip s ++ r /\ all_space l /\ all_space r.
Proof.
  destruct (lstrip_decompose s) as [l [Hl Hsl]].
  destruct (rstrip_decompose (lstrip s)) as [r [Hr Hsr]].
  exists l, r. unfold strip. rewrite <- Hr. auto.
Qed.

Lemma strip_trimmed s : trimmed (strip s).
Proof.
  split; intros c.
  - unfold strip. apply rstrip_head. apply lstrip_head.
  - unfold strip. apply rstrip_last.
Qed.

Lemma strip_all_space s : all_space s -> strip s = [].
Proof.
  intros H. unfold strip. rewrite (lstrip_all_space _ H). reflexivity.
Qed.

(** A trimmed string is left as it is. *)
Lemma lstrip_trimmed s :
  (forall c, head s = Some c -> isspace c = false) -> lstrip s = s.
Proof.
  destruct s as [|c s]; [reflexivity|]. intros H. simpl.
  now rewrite (H c eq_refl).
Qed.

Lemma strip_idem s : strip (strip s) = strip s.
Proof.
  destruct (strip_trimmed s) as [Hh Hl].
  unfold strip at 1. rewrite (lstrip_trimmed _ Hh).
  unfold rstrip. rewrite lstrip_trimmed.
  - apply rev_involutive.
  - intros c. rewrite head_rev_last. apply Hl.
Qed.


(** *** Words *)

Lemma tokenizes_space_cons c s ws :
  isspace c = true -> tokenizes s ws -> tokenizes (c :: s) ws.
Proof.
  intros Hc H. destruct H as [sp Hsp | sp w rest ws Hsp Hw Hns Hb Hrest].
  - apply tok_nil. now apply all_space_cons.
  - apply (tok_cons (c :: sp)); auto using all_space_cons.
Qed.

Lemma no_space_snoc s c : no_space s -> isspace c = false -> no_space (s ++ [c]).
Proof.
  unfold no_space. intros Hs Hc. apply Forall_app. split; [exact Hs|].
  constructor; [exact Hc | constructor].
Qed.

Lemma no_space_rev s : no_space s -> no_space (rev s).
Proof.
  unfold no_space. rewrite !Forall_forall. intros H c Hc.
  apply H. rewrite list_elem_of_In in Hc |- *. now apply in_rev.
Qed.

(** The two readings of [split_from]: between words ([cur] empty) it
    tokenizes what is left; inside a word it completes the word with a
    prefix [w] of what is left and tokenizes the rest. *)
Lemma split_from_tokenizes s :
  tokenizes s (split_from [] s)
  /\ (forall cur, cur <> [] ->
       exists w rest ws,
         split_from cur s = (rev cur ++ w) :: ws /\ s = w ++ rest
         /\ no_space w /\ starts_blank rest /\ tokenizes rest ws).
Proof.
  induction s as [|c s [IH0 IH1]].
  - split.
    + simpl. apply tok_nil, all_space_nil.
    + intros cur Hcur. exists [], [], []. simpl.
      destruct cur; [congruence|]. simpl. rewrite app_nil_r.
      repeat split; try constructor.
      * intros d [=].
      * apply all_space_nil.
  - split.
    + simpl. destruct (isspace c) eqn:Hc.
      * now apply tokenizes_space_cons.
      * destruct (IH1 [c]) as (w & rest & ws & Heq & Hs & Hw & Hb & Hr);
          [discriminate|].
        rewrite Heq, Hs. simpl.
        apply (tok_cons [] (c :: w) rest ws);
          [apply all_space_nil | discriminate | constructor; assumption
          | exact Hb | exact Hr].
    + intros cur Hcur. simpl. destruct (isspace c) eqn:Hc.
      * exists [], (c :: s), (split_from [] s).
        destruct cur as [|x cur]; [congruence|]. simpl truthy. cbv iota.
        rewrite app_nil_r. repeat split.
        -- constructor.
        -- intros d [= <-]. exact Hc.
        -- now apply tokenizes_space_cons.
      * destruct (IH1 (c :: cur)) as (w & rest & ws & Heq & Hs & Hw & Hb & Hr);
          [discriminate|].
        exists (c :: w), rest, ws. rewrite Heq, Hs. simpl.
        rewrite <- app_assoc. simpl. repeat split; auto.
        constructor; assumption.
Qed.

(** [split] computes the white-space separated words. *)
Lemma split_tokenizes s : tokenizes s (split s).
Proof. apply split_from_tokenizes. Qed.

Lemma slice_to_nonneg {A} (l : list A) n :
  0 <= n -> slice_to l n = firstn (Z.to_nat n) l.
Proof.
  intros Hn. unfold slice_to.
  destruct (Z.ltb_spec n 0); [lia | reflexivity].
Qed.

(** *** Lines *)

Lemma lines_from_concat s cur :
  concat (lines_from cur s) = rev cur ++ s.
Proof.
  revert cur. induction s as [|c s IH]; intros cur; simpl.
  - destruct cur; simpl; [reflexivity|]. now rewrite !app_nil_r.
  - destruct (c =? 10)%N.
    + simpl. rewrite IH. simpl. now rewrite <- app_assoc.
    + rewrite IH. simpl. now rewrite <- app_assoc.
Qed.

(** The lines of a file, put end to end, are its translated content. *)
Lemma file_lines_concat content :
  concat (file_lines content) = universal_newlines content.
Proof. unfold file_lines. now rewrite lines_from_concat. Qed.

(** [universal_newlines] translates the line ends. *)
Lemma universal_newlines_translates s : translates s (universal_newlines s).
Proof.
  remember (length s) as n eqn:Hn. revert s Hn.
  induction n as [n IH] using lt_wf_ind. intros s Hn.
  destruct s as [|c s]; [constructor|]. cbn [universal_newlines].
  destruct (N.eqb_spec c 13) as [-> | Hc].
  - destruct s as [|d s].
    + apply (translates_cr [] []); [discriminate | constructor].
    + destruct (N.eqb_spec d 10) as [-> | Hd].
      * apply translates_crlf. apply (IH (length s)); simpl in *; lia.
      * apply translates_cr; [simpl; congruence|].
        apply (IH (length (d :: s))); simpl in *; lia.
  - apply translates_char; [exact Hc|].
    apply (IH (length s)); simpl in *; lia.
Qed.

(** [lines_from] cuts a text after each line feed. *)
Lemma lines_from_splits s : forall cur,
  Forall (fun c => c <> 10%N) cur ->
  splits_into_lines (rev cur ++ s) (lines_from cur s).
Proof.
  induction s as [|c s IH]; intros cur Hcur; cbn [lines_from].
  - rewrite app_nil_r. destruct cur as [|x cur]; [constructor|].
    cbn [truthy]. apply lines_last.
    + intros H. apply (f_equal (@length N)) in H.
      rewrite length_rev in H. discriminate.
    + now apply Forall_rev.
  - destruct (N.eqb_spec c 10) as [-> | Hc].
    + cbn [rev]. apply lines_cons; [now apply Forall_rev|].
      apply (IH []). constructor.
    + replace (rev cur ++ c :: s) with (rev (c :: cur) ++ s)
        by (cbn [rev]; now rewrite <- app_assoc).
      apply IH. now constructor.
Qed.

(** The lines of a file are the lines of its translated content. *)
Lemma file_lines_splits content :
  splits_into_lines (universal_newlines content) (file_lines content).
Proof. apply (lines_from_splits _ []). constructor. Qed.

End PyTextFacts.

Import PyTextFacts.


(** ** Floats *)

Module FloatFacts.

Import PyFloat.

(** *** Digits *)

Lemma digits2_pos_size p : digits2_pos p = Pos.size p.
Proof. induction p; simpl; congruence. Qed.

(** The number of binary digits of a positive integer bounds it. *)
Lemma Zdigits2_bounds p :
  2 ^ (Zdigits2 (Zpos p) - 1) <= Zpos p < 2 ^ Zdigits2 (Zpos p).
Proof.
  simpl. rewrite digits2_pos_size. split.
  - pose proof (Pos.size_le p) as H.
    apply Pos2Z.pos_le_pos in H. rewrite Pos2Z.inj_pow in H.
    change (Zpos p~0) with (2 * Zpos p) in H.
    replace (Zpos (Pos.size p)) with (Z.succ (Zpos (Pos.size p) - 1)) in H by lia.
    rewrite Z.pow_succ_r in H by lia. lia.
  - pose proof (Pos.size_gt p) as H.
    apply Pos2Z.pos_lt_pos in H. now rewrite Pos2Z.inj_pow in H.
Qed.

Lemma Zdigits2_pos p : 0 < Zdigits2 (Zpos p).
Proof. reflexivity. Qed.

(** Conversely the bounds determine the number of digits. *)
Lemma Zdigits2_unique z k :
  0 < k -> 2 ^ (k - 1) <= z < 2 ^ k -> Zdigits2 z = k.
Proof.
  intros Hk [Hlo Hhi].
  assert (Hz : 0 < z) by (pose proof (Z.pow_pos_nonneg 2 (k - 1)); lia).
  destruct z as [|p|p]; try lia.
  pose proof (Zdigits2_bounds p) as [Hlo' Hhi'].
  pose proof (Zdigits2_pos p) as Hd.
  set (d := Zdigits2 (Zpos p)) in *.
  destruct (Z.lt_trichotomy d k) as [Hlt | [Heq | Hgt]]; [|exact Heq|].
  - assert (2 ^ d <= 2 ^ (k - 1)) by (apply Z.pow_le_mono_r; lia). lia.
  - assert (2 ^ k <= 2 ^ (d - 1)) by (apply Z.pow_le_mono_r; lia). lia.
Qed.

(** *** Shifting right *)

Lemma shr_1_m mrs : 0 <= shr_m mrs -> shr_m (shr_1 mrs) = shr_m mrs / 2.
Proof.
  destruct mrs as [m r s]. simpl. intros Hm.
  destruct m as [|[p|p|]|p]; simpl; try reflexivity; try lia.
  - rewrite Pos2Z.inj_xI. apply Z.div_unique with 1; lia.
  - rewrite Pos2Z.inj_xO. apply Z.div_unique with 0; lia.
Qed.

Lemma shr_iter_m p mrs :
  0 <= shr_m mrs ->
  shr_m (SpecFloat.iter_pos shr_1 p mrs) = shr_m mrs / 2 ^ Zpos p.
Proof.
  revert mrs. induction p as [p IH | p IH |]; intros mrs Hm;
    simpl SpecFloat.iter_pos.
  - assert (Hp : 0 < 2 ^ Zpos p) by (apply Z.pow_pos_nonneg; lia).
    assert (E1 : 2 ^ Zpos p~1 = 2 * 2 ^ Zpos p * 2 ^ Zpos p).
    { replace (Zpos p~1) with (1 + Zpos p + Zpos p) by lia.
      rewrite !Z.pow_add_r by lia. reflexivity. }
    assert (H1 : 0 <= shr_m (shr_1 mrs))
      by (rewrite shr_1_m by exact Hm; apply Z.div_pos; lia).
    assert (H2 : 0 <= shr_m (SpecFloat.iter_pos shr_1 p (shr_1 mrs)))
      by (rewrite IH by exact H1; apply Z.div_pos; lia).
    rewrite IH by exact H2. rewrite IH by exact H1. rewrite shr_1_m by exact Hm.
    rewrite E1. rewrite !Z.div_div by lia. f_equal. lia.
  - assert (Hp : 0 < 2 ^ Zpos p) by (apply Z.pow_pos_nonneg; lia).
    assert (E1 : 2 ^ Zpos p~0 = 2 ^ Zpos p * 2 ^ Zpos p).
    { replace (Zpos p~0) with (Zpos p + Zpos p) by lia.
      rewrite Z.pow_add_r by lia. reflexivity. }
    assert (H2 : 0 <= shr_m (SpecFloat.iter_pos shr_1 p mrs))
      by (rewrite IH by exact Hm; apply Z.div_pos; lia).
    rewrite IH by exact H2. rewrite IH by exact Hm.
    rewrite E1. rewrite !Z.div_div by lia. f_equal.
  - rewrite shr_1_m by exact Hm. reflexivity.
Qed.

(** The mantissa after [shr]: a division by a power of two. *)
Lemma shr_m_div mrs e n :
  0 <= shr_m mrs -> 0 <= n ->
  shr_m (fst (shr mrs e n)) = shr_m mrs / 2 ^ n /\ snd (shr mrs e n) = e + n.
Proof.
  intros Hm Hn. destruct n as [|p|p]; simpl; try lia.
  - rewrite Z.div_1_r. split; [reflexivity | lia].
  - split; [now apply shr_iter_m | reflexivity].
Qed.

Lemma shr_record_of_loc_m m l : shr_m (shr_record_of_loc m l) = m.
Proof. destruct l as [|[]]; reflexivity. Qed.

Lemma round_nearest_even_cases q l :
  round_nearest_even q l = q \/ round_nearest_even q l = q + 1.
Proof.
  destruct l as [|[]]; simpl; auto. destruct (Z.even q); auto.
Qed.


(** *** Rounding *)

Lemma fexp_normal e : -1074 <= e - 53 -> fexp prec emax e = e - 53.
Proof. unfold fexp, emin, prec, emax. lia. Qed.

(** [binary_round_aux] on a positive mantissa [M] of at least 53 digits,
    away from underflow and overflow: the first shift leaves the 53 leading
    digits [q], rounding gives [q'], which is [q] or [q + 1], and a second
    shift by one digit renormalises when [q'] reaches [2^53]. *)
Lemma round_aux_pos M E l :
  0 < M -> 53 <= Zdigits2 M ->
  -1074 <= Zdigits2 M + E - 53 -> Zdigits2 M + E - 53 < 971 ->
  exists q' m,
    (q' = M / 2 ^ (Zdigits2 M - 53) \/ q' = M / 2 ^ (Zdigits2 M - 53) + 1)
    /\ (Zdigits2 M = 53 -> l = loc_Exact -> q' = M)
    /\ 2 ^ 52 <= q' <= 2 ^ 53
    /\ Zpos m = (if q' <? 2 ^ 53 then q' else 2 ^ 52)
    /\ binary_round_aux prec emax false M E l
       = S754_finite false m
           (if q' <? 2 ^ 53 then E + (Zdigits2 M - 53)
            else E + (Zdigits2 M - 53) + 1).
Proof.
  intros HM Hd Hlo Hhi.
  set (d := Zdigits2 M) in *. set (n := d - 53).
  assert (Hn : 0 <= n) by (unfold n; lia).
  assert (Hpn : 0 < 2 ^ n) by (apply Z.pow_pos_nonneg; lia).
  destruct M as [|pM|pM]; try lia.
  pose proof (Zdigits2_bounds pM) as [HMlo HMhi]. fold d in HMlo, HMhi.
  assert (E52 : 2 ^ (d - 1) = 2 ^ 52 * 2 ^ n)
    by (rewrite <- Z.pow_add_r by lia; f_equal; unfold n; lia).
  assert (E53 : 2 ^ d = 2 ^ 53 * 2 ^ n)
    by (rewrite <- Z.pow_add_r by lia; f_equal; unfold n; lia).
  set (q := Zpos pM / 2 ^ n).
  assert (Hq : 2 ^ 52 <= q < 2 ^ 53).
  { unfold q. split.
    - apply Z.div_le_lower_bound; lia.
    - apply Z.div_lt_upper_bound; lia. }
  unfold binary_round_aux, shr_fexp. fold d.
  rewrite (fexp_normal (d + E)) by lia.
  replace (d + E - 53 - E) with n by (unfold n; lia).
  destruct (shr_m_div (shr_record_of_loc (Zpos pM) l) E n) as [Hm1 He1];
    [rewrite shr_record_of_loc_m; lia | exact Hn |].
  rewrite shr_record_of_loc_m in Hm1. fold q in Hm1.
  destruct (shr (shr_record_of_loc (Zpos pM) l) E n) as [mrs1 e1] eqn:Hshr1.
  simpl in Hm1, He1. subst e1. rewrite Hm1.
  set (q' := round_nearest_even q (loc_of_shr_record mrs1)).
  assert (Hq' : q' = q \/ q' = q + 1) by apply round_nearest_even_cases.
  assert (Hexact : d = 53 -> l = loc_Exact -> q' = Zpos pM).
  { intros Hd53 ->. unfold q'.
    assert (n = 0) as Hn0 by (unfold n; lia).
    rewrite Hn0 in Hshr1. simpl in Hshr1. injection Hshr1 as <-.
    simpl. unfold q. rewrite Hn0. simpl. apply Z.div_1_r. }
  exists q'.
  destruct (Z.ltb_spec q' (2 ^ 53)) as [Hlt | Hge].
  - (* no renormalisation *)
    assert (Hd' : Zdigits2 q' = 53) by (apply Zdigits2_unique; lia).
    rewrite Hd'. rewrite (fexp_normal (53 + (E + n))) by (unfold n; lia).
    replace (53 + (E + n) - 53 - (E + n)) with 0 by lia.
    simpl shr. cbv beta iota. simpl shr_m.
    destruct q' as [|pq|pq]; try lia.
    exists pq. repeat split; try lia; auto.
    destruct (Z.leb_spec (E + n) (emax - prec)); [reflexivity|].
    unfold emax, prec, n in *. lia.
  - (* the mantissa reached 2^53 *)
    assert (Hq'53 : q' = 2 ^ 53) by lia.
    assert (Hd' : Zdigits2 q' = 54) by (apply Zdigits2_unique; lia).
    rewrite Hd'. rewrite (fexp_normal (54 + (E + n))) by (unfold n; lia).
    replace (54 + (E + n) - 53 - (E + n)) with 1 by lia.
    replace (shr_record_of_loc q' loc_Exact)
      with (shr_record_of_loc (2 ^ 53) loc_Exact) by (now rewrite Hq'53).
    simpl shr. cbv beta iota.
    exists (Z.to_pos (2 ^ 52)). repeat split; try lia; auto.
    + destruct (Z.leb_spec (E + n + 1) (emax - prec)); [reflexivity|].
      unfold emax, prec, n in *. lia.
Qed.


(** Faithful rounding: the result [m * 2^(E + n)] of [binary_round_aux]
    differs from the value [M * 2^E] it is given by less than one unit in
    the last place. *)
Lemma round_aux_faithful M E l :
  0 < M -> 53 <= Zdigits2 M ->
  -1074 <= Zdigits2 M + E - 53 -> Zdigits2 M + E - 53 < 971 ->
  exists m n,
    binary_round_aux prec emax false M E l = S754_finite false m (E + n)
    /\ 0 <= n
    /\ 2 ^ 52 <= Zpos m < 2 ^ 53
    /\ M - 2 ^ n < Zpos m * 2 ^ n <= M + 2 ^ n.
Proof.
  intros HM Hd Hlo Hhi.
  destruct (round_aux_pos M E l HM Hd Hlo Hhi)
    as (q' & m & Hq' & _ & Hq'b & Hm & Hr).
  set (n := Zdigits2 M - 53) in *.
  assert (Hn : 0 <= n) by (unfold n; lia).
  assert (Hpn : 0 < 2 ^ n) by (apply Z.pow_pos_nonneg; lia).
  pose proof (Z.div_mod M (2 ^ n) ltac:(lia)) as Hdm.
  pose proof (Z.mod_pos_bound M (2 ^ n) Hpn) as Hmod.
  set (q := M / 2 ^ n) in *.
  destruct (Z.ltb_spec q' (2 ^ 53)) as [Hlt | Hge].
  - exists m, n. rewrite Hr. repeat split; try lia.
    all: rewrite Hm; destruct Hq' as [-> | ->]; nia.
  - exists m, (n + 1). rewrite Hr, Z.add_assoc.
    assert (Hq53 : q' = 2 ^ 53) by lia.
    assert (Hqq : q' = q + 1) by (destruct Hq' as [H | H]; [|exact H];
      exfalso; assert (2 ^ 52 <= q < 2 ^ 53); [|lia];
      unfold q; pose proof (Zdigits2_bounds (Z.to_pos M)) as Hb;
      rewrite Z2Pos.id in Hb by lia;
      assert (E52 : 2 ^ (Zdigits2 M - 1) = 2 ^ 52 * 2 ^ n)
        by (rewrite <- Z.pow_add_r by lia; f_equal; unfold n; lia);
      assert (E53 : 2 ^ Zdigits2 M = 2 ^ 53 * 2 ^ n)
        by (rewrite <- Z.pow_add_r by lia; f_equal; unfold n; lia);
      split; [apply Z.div_le_lower_bound | apply Z.div_lt_upper_bound]; lia).
    rewrite Z.pow_add_r by lia. change (2 ^ 1) with 2.
    repeat split; try lia.
    all: rewrite Hm; assert (H53 : 2 ^ 53 = 2 ^ 52 * 2) by reflexivity; nia.
Qed.

(** The product of two positive floats with full mantissas. *)
Lemma mul_faithful m1 e1 m2 e2 :
  Zdigits2 (Zpos m1) = 53 -> Zdigits2 (Zpos m2) = 53 ->
  -1000 <= e1 + e2 <= 800 ->
  exists m n,
    mul (S754_finite false m1 e1) (S754_finite false m2 e2)
    = S754_finite false m (e1 + e2 + n)
    /\ 0 <= n
    /\ 2 ^ 52 <= Zpos m < 2 ^ 53
    /\ Zpos m1 * Zpos m2 - 2 ^ n < Zpos m * 2 ^ n <= Zpos m1 * Zpos m2 + 2 ^ n.
Proof.
  intros Hd1 Hd2 He.
  pose proof (Zdigits2_bounds m1) as H1. rewrite Hd1 in H1.
  pose proof (Zdigits2_bounds m2) as H2. rewrite Hd2 in H2.
  change (53 - 1) with 52 in H1, H2.
  assert (Hprod : 2 ^ 104 <= Zpos (m1 * m2) < 2 ^ 106).
  { rewrite Pos2Z.inj_mul.
    change (2 ^ 104) with (2 ^ 52 * 2 ^ 52).
    change (2 ^ 106) with (2 ^ 53 * 2 ^ 53). nia. }
  assert (Hd : Zdigits2 (Zpos (m1 * m2)) = 105 \/ Zdigits2 (Zpos (m1 * m2)) = 106).
  { destruct (Z.lt_ge_cases (Zpos (m1 * m2)) (2 ^ 105)).
    - left. apply Zdigits2_unique; lia.
    - right. apply Zdigits2_unique; lia. }
  unfold mul, SFmul. simpl xorb.
  destruct (round_aux_faithful (Zpos (m1 * m2)) (e1 + e2) loc_Exact)
    as (m & n & Hr & Hn & Hm & Hb); try lia.
  exists m, n. rewrite <- Pos2Z.inj_mul. auto.
Qed.


(** *** Integers as floats *)

Lemma iter_xO_pow p k : Zpos (Pos.iter xO p k) = Zpos p * 2 ^ Zpos k.
Proof.
  rewrite <- Z.shiftl_mul_pow2 by lia. unfold Z.shiftl.
  apply (Pos.iter_swap_gen _ _ Zpos xO (Z.mul 2)). reflexivity.
Qed.

(** An integer below [2^53] is a float: its mantissa is the integer
    shifted left to 53 digits. *)
Lemma of_int_pos z :
  0 < z < 2 ^ 53 ->
  exists m,
    of_int z = S754_finite false m (Zdigits2 z - 53)
    /\ Zpos m = z * 2 ^ (53 - Zdigits2 z)
    /\ Zdigits2 (Zpos m) = 53.
Proof.
  intros [Hz0 Hz53]. destruct z as [|p|p]; try lia.
  pose proof (Zdigits2_bounds p) as Hb.
  pose proof (Zdigits2_pos p) as Hd0.
  set (d := Zdigits2 (Zpos p)) in *.
  assert (Hd : d <= 53).
  { destruct (Z.le_gt_cases d 53) as [H | H]; [exact H|].
    assert (2 ^ 53 <= 2 ^ (d - 1)) by (apply Z.pow_le_mono_r; lia). lia. }
  assert (Hfull : forall mz, Zpos mz = Zpos p * 2 ^ (53 - d) ->
                             Zdigits2 (Zpos mz) = 53).
  { intros mz Hmz. apply Zdigits2_unique; [lia|]. rewrite Hmz.
    assert (Ea : 2 ^ (53 - 1) = 2 ^ (d - 1) * 2 ^ (53 - d))
      by (rewrite <- Z.pow_add_r by lia; f_equal; lia).
    assert (Eb : 2 ^ 53 = 2 ^ d * 2 ^ (53 - d))
      by (rewrite <- Z.pow_add_r by lia; f_equal; lia).
    assert (0 < 2 ^ (53 - d)) by (apply Z.pow_pos_nonneg; lia).
    rewrite Ea, Eb. nia. }
  unfold of_int, binary_normalize, binary_round.
  change (Zpos (digits2_pos p)) with d. rewrite Z.add_0_r.
  rewrite (fexp_normal d) by lia.
  assert (Hal : exists mz,
             shl_align p 0 (d - 53) = (mz, d - 53)
             /\ Zpos mz = Zpos p * 2 ^ (53 - d)).
  { unfold shl_align. rewrite Z.sub_0_r.
    destruct (d - 53) as [|k|k] eqn:Hk; try lia.
    - exists p. replace (53 - d) with 0 by lia. split; [reflexivity | lia].
    - exists (Pos.iter xO p k). split; [reflexivity|].
      rewrite iter_xO_pow. f_equal. f_equal. lia. }
  destruct Hal as (mz & Hal & Hmz). rewrite Hal.
  pose proof (Hfull mz Hmz) as Hdz.
  destruct (round_aux_pos (Zpos mz) (d - 53) loc_Exact)
    as (q' & m & _ & Hex & Hq'b & Hm & Hr); try lia.
  specialize (Hex Hdz eq_refl). subst q'.
  pose proof (Zdigits2_bounds mz) as Hbz. rewrite Hdz in Hbz.
  destruct (Z.ltb_spec (Zpos mz) (2 ^ 53)); [|lia].
  rewrite Hdz in Hr. replace (d - 53 + (53 - 53)) with (d - 53) in Hr by lia.
  exists m. rewrite Hr. injection Hm as ->. auto.
Qed.

Lemma of_int_zero : of_int 0 = S754_zero false.
Proof. reflexivity. Qed.

(** [int] of a positive float is the integer part of its value. *)
Lemma to_int_finite m e :
  to_int (S754_finite false m e)
  = Some (if 0 <=? e then Zpos m * 2 ^ e else Zpos m / 2 ^ (- e)).
Proof.
  unfold to_int. simpl cond_Zopp. f_equal.
  destruct (Z.leb_spec 0 e).
  - apply Z.shiftl_mul_pow2. exact H.
  - apply Z.shiftl_div_pow2. lia.
Qed.

(** The quotient of two positive floats with full mantissas. *)
Lemma div_faithful m1 e1 m2 e2 :
  Zdigits2 (Zpos m1) = 53 -> Zdigits2 (Zpos m2) = 53 ->
  -900 <= e1 - e2 <= 900 ->
  exists m n,
    SFdiv prec emax (S754_finite false m1 e1) (S754_finite false m2 e2)
    = S754_finite false m (e1 - e2 - 53 + n)
    /\ 0 <= n
    /\ 2 ^ 52 <= Zpos m < 2 ^ 53
    /\ Zpos m1 * 2 ^ 53 / Zpos m2 - 2 ^ n < Zpos m * 2 ^ n
       <= Zpos m1 * 2 ^ 53 / Zpos m2 + 2 ^ n.
Proof.
  intros Hd1 Hd2 He.
  pose proof (Zdigits2_bounds m1) as H1. rewrite Hd1 in H1.
  pose proof (Zdigits2_bounds m2) as H2. rewrite Hd2 in H2.
  change (53 - 1) with 52 in H1, H2.
  unfold SFdiv, SFdiv_core_binary. simpl xorb. rewrite Hd1, Hd2.
  replace (53 + e1 - (53 + e2)) with (e1 - e2) by lia.
  rewrite (fexp_normal (e1 - e2)) by lia.
  rewrite Z.min_l by lia.
  replace (e1 - e2 - (e1 - e2 - 53)) with 53 by lia.
  cbv beta iota.
  rewrite Z.shiftl_mul_pow2 by lia.
  set (q := Zpos m1 * 2 ^ 53 / Zpos m2).
  pose proof (Z.div_eucl_eq (Zpos m1 * 2 ^ 53) (Zpos m2) ltac:(lia)) as Heq.
  pose proof (Z.mod_pos_bound (Zpos m1 * 2 ^ 53) (Zpos m2) ltac:(lia)) as Hmod.
  unfold Z.modulo in Hmod.
  assert (Hq : fst (Z.div_eucl (Zpos m1 * 2 ^ 53) (Zpos m2)) = q) by reflexivity.
  destruct (Z.div_eucl (Zpos m1 * 2 ^ 53) (Zpos m2)) as [q0 r] eqn:Hde.
  simpl in Hq. subst q0.
  assert (Hqb : 2 ^ 52 <= q < 2 ^ 54).
  { change (2 ^ 54) with (2 ^ 53 * 2). change (2 ^ 53) with (2 ^ 52 * 2) in *.
    nia. }
  assert (Hdq : Zdigits2 q = 53 \/ Zdigits2 q = 54).
  { destruct (Z.lt_ge_cases q (2 ^ 53)).
    - left. apply Zdigits2_unique; lia.
    - right. apply Zdigits2_unique; lia. }
  destruct (round_aux_faithful q (e1 - e2 - 53) (new_location (Zpos m2) r))
    as (m & n & Hr & Hn & Hm & Hb); try lia.
  exists m, n. auto.
Qed.


(** *** Scaling an integer by a constant *)

Lemma pow2_lt_exp a b : 2 ^ a < 2 ^ b -> 0 <= b -> a < b.
Proof.
  intros H Hb. destruct (Z.lt_ge_cases a b) as [Hlt | Hge]; [exact Hlt|].
  assert (2 ^ b <= 2 ^ a) by (apply Z.pow_le_mono_r; lia). lia.
Qed.

Lemma Zdigits2_le z k : 0 < z < 2 ^ k -> 0 <= k -> 0 < Zdigits2 z <= k.
Proof.
  intros [Hz Hk] Hk0. destruct z as [|p|p]; try lia.
  pose proof (Zdigits2_bounds p) as Hb. pose proof (Zdigits2_pos p).
  split; [lia|].
  assert (Zdigits2 (Zpos p) - 1 < k); [|lia].
  apply pow2_lt_exp; lia.
Qed.

(** A unit in the last place is small when the mantissa is full. *)
Lemma unit_bound m g M B :
  2 ^ 52 <= m -> 0 < g -> m * g <= M + g -> M < (2 ^ 52 - 1) * B -> g < B.
Proof.
  intros Hm Hg Hmg HM.
  destruct (Z.lt_ge_cases g B) as [H | H]; [exact H | exfalso].
  assert ((2 ^ 52 - 1) * B <= (2 ^ 52 - 1) * g)
    by (apply Z.mul_le_mono_nonneg_l; lia).
  assert (2 ^ 52 * g <= m * g) by (apply Z.mul_le_mono_nonneg_r; lia).
  lia.
Qed.

(** For a float constant [cm * 2^ec] that lies just above [1 / k], the
    integer part of the float product [pw * c] is the integer quotient
    [pw / k]. *)

(** The arithmetic behind [mul_const_floor]: [A = pw * a] is the mantissa
    of [pw], [cm] the mantissa of the constant, [g] the unit of the rounded
    product [m], and [G] the weight of the integer 1 in units of [m]. *)
Lemma floor_core pw k cm a c2 g G m Q :
  0 < k -> 0 <= Q -> 0 < a -> 0 < g -> 0 < G -> 0 < cm -> 0 < c2 ->
  k * Q <= pw < k * Q + k ->
  c2 <= k * cm <= c2 + 4 ->
  g * G = a * c2 ->
  pw * a * cm - g < m * g <= pw * a * cm + g ->
  4 * (pw * a) + k * g < a * c2 ->
  Q * G <= m < (Q + 1) * G.
Proof.
  intros Hk HQ Ha Hg HG Hcm Hc2 Hpw Hc HT Hb Hroom.
  assert (Hpw0 : 0 <= pw) by nia.
  split.
  - assert (H1 : k * Q * (a * c2) <= pw * (a * (k * cm))).
    { apply Z.mul_le_mono_nonneg; nia. }
    assert (H2 : k * (Q * (g * G)) <= k * (pw * a * cm)).
    { rewrite HT. replace (k * (Q * (a * c2))) with (k * Q * (a * c2)) by ring.
      replace (k * (pw * a * cm)) with (pw * (a * (k * cm))) by ring.
      exact H1. }
    assert (H3 : Q * (g * G) <= pw * a * cm)
      by (apply (Z.mul_le_mono_pos_l _ _ k); assumption).
    assert (H4 : g * (Q * G) < g * (m + 1)).
    { replace (g * (Q * G)) with (Q * (g * G)) by ring.
      replace (g * (m + 1)) with (m * g + g) by ring. lia. }
    apply Z.mul_lt_mono_pos_l in H4; lia.
  - assert (H1 : pw * (a * (k * cm)) <= pw * (a * (c2 + 4))).
    { apply Z.mul_le_mono_nonneg_l; [exact Hpw0|].
      apply Z.mul_le_mono_nonneg_l; lia. }
    assert (H2 : k * (m * g) <= pw * (a * (c2 + 4)) + k * g).
    { replace (pw * (a * (k * cm))) with (k * (pw * a * cm)) in H1 by ring.
      assert (k * (m * g) <= k * (pw * a * cm + g))
        by (apply Z.mul_le_mono_nonneg_l; lia).
      lia. }
    assert (H3 : k * (m * g) < (pw + 1) * (a * c2)).
    { replace (pw * (a * (c2 + 4))) with (pw * (a * c2) + 4 * (pw * a)) in H2
        by ring.
      replace ((pw + 1) * (a * c2)) with (pw * (a * c2) + a * c2) by ring.
      lia. }
    assert (H4 : (pw + 1) * (a * c2) <= k * (Q + 1) * (a * c2)).
    { apply Z.mul_le_mono_nonneg_r; [|lia].
      apply Z.mul_nonneg_nonneg; lia. }
    assert (H5 : (k * g) * m < (k * g) * ((Q + 1) * G)).
    { replace (k * g * m) with (k * (m * g)) by ring.
      replace (k * g * ((Q + 1) * G)) with (k * (Q + 1) * (g * G)) by ring.
      rewrite HT. lia. }
    apply Z.mul_lt_mono_pos_l in H5; [exact H5|].
    apply Z.mul_pos_pos; assumption.
Qed.


(** For a float constant [cm * 2^ec] that lies just above [1 / k], the
    integer part of the float product [pw * c] is the integer quotient
    [pw / k]. *)
Lemma mul_const_floor pw k cm ec :
  0 < pw < 2 ^ 31 ->
  Zdigits2 (Zpos cm) = 53 -> -60 <= ec <= -50 -> 0 < k <= 10 ->
  2 ^ (- ec) <= k * Zpos cm <= 2 ^ (- ec) + 4 ->
  to_int (mul (of_int pw) (S754_finite false cm ec)) = Some (pw / k).
Proof.
  intros Hpw Hdc Hec Hk Hc.
  destruct (Zdigits2_le pw 31 Hpw ltac:(lia)) as [Hdp0 Hdp].
  destruct (of_int_pos pw) as (A & Hof & HA & HdA); [lia|].
  set (dp := Zdigits2 pw) in *.
  destruct (mul_faithful A (dp - 53) cm ec HdA Hdc ltac:(lia))
    as (m & n & Hmul & Hn & Hm & Hb).
  rewrite Hof, Hmul, to_int_finite.
  pose proof (Zdigits2_bounds A) as HAb. rewrite HdA in HAb.
  pose proof (Zdigits2_bounds cm) as Hcb. rewrite Hdc in Hcb.
  change (53 - 1) with 52 in HAb, Hcb.
  assert (Ha22 : 2 ^ 22 <= 2 ^ (53 - dp)) by (apply Z.pow_le_mono_r; lia).
  assert (Hc50 : 2 ^ 50 <= 2 ^ (- ec)) by (apply Z.pow_le_mono_r; lia).
  assert (Hg0 : 0 < 2 ^ n) by (apply Z.pow_pos_nonneg; lia).
  assert (HM : Zpos A * Zpos cm < 2 ^ 53 * 2 ^ 53)
    by (apply Z.mul_lt_mono_nonneg; lia).
  assert (Hg55 : 2 ^ n < 2 ^ 55)
    by (apply (unit_bound (Zpos m) (2 ^ n) (Zpos A * Zpos cm)); lia).
  assert (Hn55 : n < 55) by (apply pow2_lt_exp; [exact Hg55 | lia]).
  destruct (Z.leb_spec 0 (dp - 53 + ec + n)) as [Hbad | _]; [lia|].
  assert (HG0 : 0 < 2 ^ (- (dp - 53 + ec + n)))
    by (apply Z.pow_pos_nonneg; lia).
  assert (HT : 2 ^ n * 2 ^ (- (dp - 53 + ec + n))
               = 2 ^ (53 - dp) * 2 ^ (- ec)).
  { rewrite <- !Z.pow_add_r by lia. f_equal. lia. }
  assert (Hac : 2 ^ 22 * 2 ^ 50 <= 2 ^ (53 - dp) * 2 ^ (- ec))
    by (apply Z.mul_le_mono_nonneg; lia).
  pose proof (Z.div_mod pw k ltac:(lia)) as Hdm.
  pose proof (Z.mod_pos_bound pw k ltac:(lia)) as Hmod.
  assert (HQ0 : 0 <= pw / k) by (apply Z.div_pos; lia).
  assert (Hkg : k * 2 ^ n <= 10 * 2 ^ 55)
    by (apply Z.mul_le_mono_nonneg; lia).
  assert (Hb' : pw * 2 ^ (53 - dp) * Zpos cm - 2 ^ n < Zpos m * 2 ^ n
                <= pw * 2 ^ (53 - dp) * Zpos cm + 2 ^ n)
    by (rewrite <- HA; exact Hb).
  assert (Hroom : 4 * (pw * 2 ^ (53 - dp)) + k * 2 ^ n
                  < 2 ^ (53 - dp) * 2 ^ (- ec))
    by (rewrite <- HA; lia).
  destruct (floor_core pw k (Zpos cm) (2 ^ (53 - dp)) (2 ^ (- ec)) (2 ^ n)
              (2 ^ (- (dp - 53 + ec + n))) (Zpos m) (pw / k))
    as [Hlo Hhi]; try assumption; try lia.
  f_equal. apply Z.le_antisymm.
  - apply Z.lt_succ_r. apply Z.div_lt_upper_bound; [exact HG0|]. lia.
  - apply Z.div_le_lower_bound; [exact HG0|]. lia.
Qed.


(** The arithmetic behind the height of the logo. [lw * a1], [w * a2] and
    [h * a3] are the mantissas of the three integers, [q1] the integer
    quotient of the first two, [R] the mantissa of the rounded ratio with
    unit [g1], [X] the mantissa of the rounded product with unit [g2], and
    [G] the weight of the integer 1 in units of [X]. *)
Lemma height_core h lw w a1 a2 a3 g1 g2 G R X q1 L :
  0 < h -> 0 < lw -> 0 < w -> 0 < a1 -> 0 < a2 -> 0 < a3 ->
  0 < g1 -> 0 < g2 -> 0 < G -> 0 < R -> 0 <= q1 ->
  q1 * (w * a2) <= lw * a1 * 2 ^ 53 < (q1 + 1) * (w * a2) ->
  q1 - g1 < R * g1 <= q1 + g1 ->
  h * a3 * R - g2 < X * g2 <= h * a3 * R + g2 ->
  G * (g1 * g2 * a2) = a1 * a3 * 2 ^ 53 ->
  (h * a3 + g2) * g1 * (w * a2) < a1 * a3 * 2 ^ 53 ->
  w * L <= h * lw < w * L + w ->
  (L - 1) * G <= X < (L + 1) * G.
Proof.
  intros Hh Hlw Hw Ha1 Ha2 Ha3 Hg1 Hg2 HG HR Hq1 Hq HRb HXb HD Hroom HL.
  set (P := g1 * g2 * a2) in *.
  assert (HP : 0 < P) by (unfold P; repeat apply Z.mul_pos_pos; assumption).
  set (D := a1 * a3 * 2 ^ 53) in *.
  set (W := w * a2) in *.
  assert (HW : 0 < W) by (unfold W; apply Z.mul_pos_pos; assumption).
  set (H := h * a3) in *.
  assert (HH : 0 < H) by (unfold H; apply Z.mul_pos_pos; assumption).
  assert (HgW : 0 < g1 * W) by (apply Z.mul_pos_pos; assumption).
  assert (EhD : H * (lw * a1 * 2 ^ 53) = h * lw * D) by (unfold H, D; ring).
  assert (EXP : forall z, z * g2 * (g1 * W) = z * w * P)
    by (intros z; unfold W, P; ring).
  split.
  - (* lower bound *)
    assert (L1 : (H * R - g2 + 1) * (g1 * W) <= X * g2 * (g1 * W))
      by (apply Z.mul_le_mono_nonneg_r; lia).
    assert (L2 : H * ((q1 - g1 + 1) * W) <= H * (R * g1 * W)).
    { apply Z.mul_le_mono_nonneg_l; [lia|].
      apply Z.mul_le_mono_nonneg_r; lia. }
    assert (L3 : H * (lw * a1 * 2 ^ 53 + 1) <= H * ((q1 + 1) * W))
      by (apply Z.mul_le_mono_nonneg_l; lia).
    assert (L4 : (h * lw - 1) * D < X * w * P).
    { rewrite <- EXP.
      replace ((h * lw - 1) * D) with (h * lw * D - D) by ring.
      rewrite <- EhD.
      replace ((H * R - g2 + 1) * (g1 * W))
        with (H * (R * g1 * W) - g2 * g1 * W + g1 * W) in L1 by ring.
      replace (H * ((q1 - g1 + 1) * W))
        with (H * ((q1 + 1) * W) - H * g1 * W) in L2 by ring.
      replace ((H + g2) * g1 * W) with (H * g1 * W + g2 * g1 * W) in Hroom
        by ring.
      replace (H * (lw * a1 * 2 ^ 53 + 1))
        with (H * (lw * a1 * 2 ^ 53) + H) in L3 by ring.
      lia. }
    assert (L5 : (w * L - 1) * (G * P) < X * w * P).
    { rewrite HD. apply Z.le_lt_trans with ((h * lw - 1) * D); [|exact L4].
      apply Z.mul_le_mono_nonneg_r;
        [unfold D; repeat apply Z.mul_nonneg_nonneg; lia | lia]. }
    assert (L6 : P * ((w * L - 1) * G) < P * (X * w)).
    { replace (P * ((w * L - 1) * G)) with ((w * L - 1) * (G * P)) by ring.
      replace (P * (X * w)) with (X * w * P) by ring. exact L5. }
    apply Z.mul_lt_mono_pos_l in L6; [|exact HP].
    assert (L7 : w * ((L - 1) * G) < w * (X + 1)).
    { replace (w * ((L - 1) * G)) with ((w * L - 1) * G - (w - 1) * G) by ring.
      assert (0 <= (w - 1) * G) by (apply Z.mul_nonneg_nonneg; lia).
      replace (w * (X + 1)) with (X * w + w) by ring. lia. }
    apply Z.mul_lt_mono_pos_l in L7; lia.
  - (* upper bound *)
    assert (U1 : X * g2 * (g1 * W) <= (H * R + g2) * (g1 * W))
      by (apply Z.mul_le_mono_nonneg_r; lia).
    assert (U2 : H * (R * g1 * W) <= H * ((q1 + g1) * W)).
    { apply Z.mul_le_mono_nonneg_l; [lia|].
      apply Z.mul_le_mono_nonneg_r; lia. }
    assert (U3 : H * (q1 * W) <= H * (lw * a1 * 2 ^ 53))
      by (apply Z.mul_le_mono_nonneg_l; lia).
    assert (U4 : X * w * P < (h * lw + 1) * D).
    { rewrite <- EXP.
      replace ((h * lw + 1) * D) with (h * lw * D + D) by ring.
      rewrite <- EhD.
      replace ((H * R + g2) * (g1 * W))
        with (H * (R * g1 * W) + g2 * g1 * W) in U1 by ring.
      replace (H * ((q1 + g1) * W))
        with (H * (q1 * W) + H * g1 * W) in U2 by ring.
      replace ((H + g2) * g1 * W) with (H * g1 * W + g2 * g1 * W) in Hroom
        by ring.
      lia. }
    assert (U5 : X * w * P < (w * (L + 1)) * (G * P)).
    { rewrite HD. apply Z.lt_le_trans with ((h * lw + 1) * D); [exact U4|].
      apply Z.mul_le_mono_nonneg_r;
        [unfold D; repeat apply Z.mul_nonneg_nonneg; lia | lia]. }
    assert (U6 : (w * P) * X < (w * P) * ((L + 1) * G)).
    { replace (w * P * X) with (X * w * P) by ring.
      replace (w * P * ((L + 1) * G)) with (w * (L + 1) * (G * P)) by ring.
      exact U5. }
    apply Z.mul_lt_mono_pos_l in U6; [exact U6|].
    apply Z.mul_pos_pos; assumption.
Qed.


Lemma Zdigits2_full m : 2 ^ 52 <= Zpos m < 2 ^ 53 -> Zdigits2 (Zpos m) = 53.
Proof. intros H. apply Zdigits2_unique; [lia|]. exact H. Qed.

(** The float computation [int(h * (lw / w))] gives the integer quotient
    [h * lw / w] or one less. *)
Lemma mul_ratio_floor lw w h :
  0 < lw < 2 ^ 31 -> 0 < w < 2 ^ 31 -> 0 < h < 2 ^ 31 -> lw * h < 2 ^ 47 ->
  exists ratio lh,
    truediv lw w = Some ratio
    /\ to_int (mul (of_int h) ratio) = Some lh
    /\ h * lw / w - 1 <= lh <= h * lw / w.
Proof.
  intros Hlw Hw Hh Hprod.
  destruct (Zdigits2_le lw 31 Hlw ltac:(lia)) as [Hd1 Hd1'].
  destruct (Zdigits2_le w 31 Hw ltac:(lia)) as [Hd2 Hd2'].
  destruct (Zdigits2_le h 31 Hh ltac:(lia)) as [Hd3 Hd3'].
  destruct (of_int_pos lw) as (A1 & Hof1 & HA1 & HdA1); [lia|].
  destruct (of_int_pos w) as (A2 & Hof2 & HA2 & HdA2); [lia|].
  destruct (of_int_pos h) as (A3 & Hof3 & HA3 & HdA3); [lia|].
  assert (Hd13 : Zdigits2 lw + Zdigits2 h <= 48).
  { destruct lw as [|p1|p1]; try lia. destruct h as [|p3|p3]; try lia.
    pose proof (Zdigits2_bounds p1) as [B1 _].
    pose proof (Zdigits2_bounds p3) as [B3 _].
    assert (Hp : 2 ^ (Zdigits2 (Zpos p1) - 1) * 2 ^ (Zdigits2 (Zpos p3) - 1)
                 <= Zpos p1 * Zpos p3)
      by (apply Z.mul_le_mono_nonneg; try lia; apply Z.pow_nonneg; lia).
    rewrite <- Z.pow_add_r in Hp by lia.
    assert (Zdigits2 (Zpos p1) - 1 + (Zdigits2 (Zpos p3) - 1) < 47); [|lia].
    apply pow2_lt_exp; lia. }
  set (d1 := Zdigits2 lw) in *. set (d2 := Zdigits2 w) in *.
  set (d3 := Zdigits2 h) in *.
  pose proof (Zdigits2_bounds A1) as HA1b. rewrite HdA1 in HA1b.
  pose proof (Zdigits2_bounds A2) as HA2b. rewrite HdA2 in HA2b.
  pose proof (Zdigits2_bounds A3) as HA3b. rewrite HdA3 in HA3b.
  change (53 - 1) with 52 in HA1b, HA2b, HA3b.
  (* the ratio *)
  destruct (div_faithful A1 (d1 - 53) A2 (d2 - 53) HdA1 HdA2 ltac:(lia))
    as (R & n1 & Hdiv & Hn1 & HR & HRb).
  set (q1 := Zpos A1 * 2 ^ 53 / Zpos A2) in *.
  pose proof (Z.div_mod (Zpos A1 * 2 ^ 53) (Zpos A2) ltac:(lia)) as Hdm1.
  pose proof (Z.mod_pos_bound (Zpos A1 * 2 ^ 53) (Zpos A2) ltac:(lia)) as Hmod1.
  fold q1 in Hdm1.
  assert (Hq1 : 0 <= q1 < 2 ^ 54).
  { split; [apply Z.div_pos; lia|].
    apply Z.div_lt_upper_bound; [lia|].
    change (2 ^ 54) with (2 ^ 52 * (2 * 2)).
    change (2 ^ 53) with (2 ^ 52 * 2) at 1.
    assert (Zpos A1 * (2 ^ 52 * 2) < Zpos A2 * (2 ^ 52 * (2 * 2))); [|lia].
    replace (Zpos A1 * (2 ^ 52 * 2)) with (2 ^ 52 * (Zpos A1 * 2)) by ring.
    replace (Zpos A2 * (2 ^ 52 * (2 * 2))) with (2 ^ 52 * (Zpos A2 * 4)) by ring.
    apply Z.mul_lt_mono_pos_l; lia. }
  assert (Hg1 : 0 < 2 ^ n1) by (apply Z.pow_pos_nonneg; lia).
  assert (Hg1' : 2 ^ n1 < 5)
    by (apply (unit_bound (Zpos R) (2 ^ n1) q1); lia).
  assert (Hn1' : n1 < 3) by (apply pow2_lt_exp; [change (2 ^ 3) with 8|]; lia).
  unfold truediv. destruct (Z.eqb_spec w 0) as [Hw0 | _]; [lia|].
  rewrite Hof1, Hof2, Hdiv.
  (* the product *)
  destruct (mul_faithful A3 (d3 - 53) R (d1 - 53 - (d2 - 53) - 53 + n1)
              HdA3 (Zdigits2_full R HR) ltac:(lia))
    as (X & n2 & Hmul & Hn2 & HX & HXb).
  assert (Hg2 : 0 < 2 ^ n2) by (apply Z.pow_pos_nonneg; lia).
  assert (HM2 : Zpos A3 * Zpos R < 2 ^ 53 * 2 ^ 53)
    by (apply Z.mul_lt_mono_nonneg; lia).
  assert (Hg2' : 2 ^ n2 < 2 ^ 55)
    by (apply (unit_bound (Zpos X) (2 ^ n2) (Zpos A3 * Zpos R)); lia).
  assert (Hn2' : n2 < 55) by (apply pow2_lt_exp; [exact Hg2' | lia]).
  exists (S754_finite false R (d1 - 53 - (d2 - 53) - 53 + n1)).
  rewrite Hof3, Hmul, to_int_finite.
  set (E := d3 - 53 + (d1 - 53 - (d2 - 53) - 53 + n1) + n2).
  assert (HE : E < 0) by (unfold E; lia).
  destruct (Z.leb_spec 0 E) as [Hbad | _]; [lia|].
  exists (Zpos X / 2 ^ (- E)). split; [reflexivity|]. split; [reflexivity|].
  assert (HG : 0 < 2 ^ (- E)) by (apply Z.pow_pos_nonneg; lia).
  assert (Ha1 : 0 < 2 ^ (53 - d1)) by (apply Z.pow_pos_nonneg; lia).
  assert (Ha2 : 0 < 2 ^ (53 - d2)) by (apply Z.pow_pos_nonneg; lia).
  assert (Ha3 : 0 < 2 ^ (53 - d3)) by (apply Z.pow_pos_nonneg; lia).
  assert (HD : 2 ^ (- E) * (2 ^ n1 * 2 ^ n2 * 2 ^ (53 - d2))
               = 2 ^ (53 - d1) * 2 ^ (53 - d3) * 2 ^ 53).
  { rewrite <- !Z.pow_add_r by lia. f_equal. unfold E. lia. }
  assert (HD111 : 2 ^ 111 <= 2 ^ (53 - d1) * 2 ^ (53 - d3) * 2 ^ 53).
  { rewrite <- !Z.pow_add_r by lia. apply Z.pow_le_mono_r; lia. }
  assert (Hroom : (Zpos A3 + 2 ^ n2) * 2 ^ n1 * Zpos A2
                  < 2 ^ (53 - d1) * 2 ^ (53 - d3) * 2 ^ 53).
  { apply Z.lt_le_trans with (2 ^ 111); [|exact HD111].
    apply Z.lt_le_trans with ((5 * 2 ^ 53) * 4 * 2 ^ 53); [|lia].
    assert (S1 : (Zpos A3 + 2 ^ n2) * 2 ^ n1 < 5 * 2 ^ 53 * 4).
    { assert (2 ^ n1 <= 4)
        by (change 4 with (2 ^ 2); apply Z.pow_le_mono_r; lia).
      apply Z.le_lt_trans with ((Zpos A3 + 2 ^ n2) * 4).
      - apply Z.mul_le_mono_nonneg_l; lia.
      - apply Z.mul_lt_mono_pos_r; lia. }
    apply Z.mul_lt_mono_nonneg;
      [apply Z.mul_nonneg_nonneg; lia | exact S1 | lia | lia]. }
  pose proof (Z.div_mod (h * lw) w ltac:(lia)) as HdmL.
  pose proof (Z.mod_pos_bound (h * lw) w ltac:(lia)) as HmodL.
  set (L := h * lw / w) in *.
  assert (Hq : q1 * (w * 2 ^ (53 - d2)) <= lw * 2 ^ (53 - d1) * 2 ^ 53
               < (q1 + 1) * (w * 2 ^ (53 - d2)))
    by (rewrite <- HA1, <- HA2; lia).
  assert (HXb' : h * 2 ^ (53 - d3) * Zpos R - 2 ^ n2 < Zpos X * 2 ^ n2
                 <= h * 2 ^ (53 - d3) * Zpos R + 2 ^ n2)
    by (rewrite <- HA3; exact HXb).
  assert (Hroom' : (h * 2 ^ (53 - d3) + 2 ^ n2) * 2 ^ n1 * (w * 2 ^ (53 - d2))
                   < 2 ^ (53 - d1) * 2 ^ (53 - d3) * 2 ^ 53)
    by (rewrite <- HA3, <- HA2; exact Hroom).
  assert (HL : w * L <= h * lw < w * L + w) by lia.
  destruct (height_core h lw w (2 ^ (53 - d1)) (2 ^ (53 - d2)) (2 ^ (53 - d3))
              (2 ^ n1) (2 ^ n2) (2 ^ (- E)) (Zpos R) (Zpos X) q1 L)
    as [Hlo Hhi]; try assumption; try lia.
  split.
  - apply Z.div_le_lower_bound; [exact HG | lia].
  - apply Z.lt_succ_r. apply Z.div_lt_upper_bound; [exact HG | lia].
Qed.

End FloatFacts.

(** ** Helper functions *)

Module HelpersFacts.

(** C7. [shorten_text(text, words=N)] joins the first [N] white-space
    separated words of [text] with single spaces; with strictly more than
    [N] words the join is followed by the marker ["..."], otherwise it is
    the join of all the words with nothing after it; an empty or absent
    text gives the empty string. So [shorten_text("a b c d e", 3)] is
    ["a b c..."] and [shorten_text("a b", 3)] is ["a b"]. *)
Theorem shorten_text_first_words (text : pystr) (N : Z) :
  0 <= N ->
  tokenizes text (split text)
  /\ (Z.of_nat (length (split text)) > N ->
      shorten_text (Some text) N
      = join (py " ") (firstn (Z.to_nat N) (split text)) ++ py "...")
  /\ (Z.of_nat (length (split text)) <= N ->
      shorten_text (Some text) N = join (py " ") (split text))
  /\ shorten_text None N = []
  /\ shorten_text (Some []) N = []
  /\ shorten_text (Some (py "a b c d e")) 3 = py "a b c..."
  /\ shorten_text (Some (py "a b")) 3 = py "a b".
Proof.
  intros HN. split; [apply split_tokenizes|].
  repeat split; try reflexivity.
  - intros Hlen. unfold shorten_text.
    destruct text as [|c text]; [simpl in Hlen; lia|]. simpl negb. cbv iota.
    rewrite slice_to_nonneg by exact HN.
    destruct (Z.gtb_spec (Z.of_nat (length (split (c :: text)))) N); [reflexivity | lia].
  - intros Hlen. unfold shorten_text.
    destruct text as [|c text]; [reflexivity|]. simpl negb. cbv iota.
    rewrite slice_to_nonneg by exact HN.
    rewrite firstn_all2 by lia.
    destruct (Z.gtb_spec (Z.of_nat (length (split (c :: text)))) N); [lia | reflexivity].
Qed.

Lemma shorten_text_first_words_witness :
  0 <= 3
  /\ shorten_text (Some (py "a b c d e")) 3
     = join (py " ") (firstn 3 (split (py "a b c d e"))) ++ py "...".
Proof.
  split; [lia|].
  apply (proj1 (proj2 (shorten_text_first_words (py "a b c d e") 3 ltac:(lia)))).
  vm_compute. reflexivity.
Defined.

(** C8. [clean_description] returns the empty string for an absent or
    empty input; otherwise it returns the text that the HTML parser
    extracts, with the white space at both ends removed and nothing else
    changed. When the parser reads ["<p>Hi <b>there</b></p>"] as
    ["Hi there"], so does [clean_description]. *)
Theorem clean_description_trimmed_text (get_text : pystr -> pystr) :
  clean_description get_text None = []
  /\ clean_description get_text (Some []) = []
  /\ (forall h, h <> [] ->
        clean_description get_text (Some h) = strip (get_text h)
        /\ trimmed (clean_description get_text (Some h))
        /\ exists l r,
             get_text h = l ++ clean_description get_text (Some h) ++ r
             /\ all_space l /\ all_space r)
  /\ (get_text (py "<p>Hi <b>there</b></p>") = py "Hi there" ->
      clean_description get_text (Some (py "<p>Hi <b>there</b></p>"))
      = py "Hi there").
Proof.
  repeat split; try reflexivity.
  - destruct h; [congruence | reflexivity].
  - destruct h; [congruence|]. apply strip_trimmed.
  - destruct h; [congruence|]. apply strip_trimmed.
  - destruct h; [congruence|]. simpl. apply strip_decompose.
  - intros Hparse. unfold clean_description. simpl negb. cbv iota.
    rewrite Hparse. vm_compute. reflexivity.
Qed.






Lemma to_json_is_object a : is_object (to_json a).
Proof. now eexists. Qed.








(** The record files after [save_article]: as before, or with the new
    record in front of the records of the file. *)
Lemma save_article_files a file w :
  article_files (save_article a file w) = article_files w
  \/ article_files (save_article a file w)
     = <[file := Readable (JArray (to_json a :: records file w))]>
         (article_files w).
Proof.
  unfold records, save_article, load_articles.
  destruct (article_files w !! file) as [[|v]|] eqn:Hf; cbn [fst].
  - right. reflexivity.
  - destruct v; try (left; reflexivity).
    destruct (scan_ids a items); [left | right | left]; reflexivity.
  - right. cbn [scan_ids write_articles article_files].
    now rewrite insert_insert_eq.
Qed.




(** C10. For a seen-file that exists and can be read,
    [load_all_sent_posts] changes nothing and returns exactly the set of
    the stripped lines of the file that are not blank. The lines are those
    of the text that text mode reads: every line end (CR LF, CR, LF) is
    one line feed, a line runs up to and including the next line feed, and
    what follows the last one is a line when it is not empty. An element
    of the set is the stripped form of such a line, so it is trimmed and
    not empty; blank lines contribute nothing; and a line counts once
    however often and with whatever surrounding white space it occurs. *)
Theorem load_all_sent_posts_stripped_lines (sent_file : string) (w : world)
    (content : pystr) :
  sent_files w !! sent_file = Some (Readable content) ->
  snd (load_all_sent_posts sent_file w) = w
  /\ translates content (universal_newlines content)
  /\ splits_into_lines (universal_newlines content) (file_lines content)
  /\ (forall x, x ∈ fst (load_all_sent_posts sent_file w)
                <-> x <> [] /\ exists line, line ∈ file_lines content
                                            /\ strip line = x)
  /\ (forall x, x ∈ fst (load_all_sent_posts sent_file w) -> trimmed x)
  /\ (forall line, line ∈ file_lines content -> all_space line ->
                   strip line ∉ fst (load_all_sent_posts sent_file w))
  /\ NoDup (elements (fst (load_all_sent_posts sent_file w))).
Proof.
  intros Hf. unfold load_all_sent_posts. rewrite Hf. simpl.
  assert (Hiff : forall x,
             x ∈ (list_to_set
                    (List.map strip
                       (List.filter (fun line => truthy (strip line))
                                    (file_lines content))) : gset pystr)
             <-> x <> [] /\ exists line, line ∈ file_lines content
                                         /\ strip line = x).
  { intros x. rewrite elem_of_list_to_set, list_elem_of_In, in_map_iff.
    split.
    - intros [line [Hx Hin]]. apply filter_In in Hin. destruct Hin as [Hin Ht].
      split.
      + subst x. destruct (strip line); [discriminate | discriminate].
      + exists line. rewrite list_elem_of_In. auto.
    - intros [Hx [line [Hin Hs]]]. exists line. split; [exact Hs|].
      apply filter_In. rewrite <- list_elem_of_In. split; [exact Hin|].
      rewrite Hs. destruct x; [congruence | reflexivity]. }
  split; [reflexivity|].
  split; [apply universal_newlines_translates|].
  split; [apply file_lines_splits|].
  split; [exact Hiff|]. split; [|split].
  - intros x Hx. apply Hiff in Hx. destruct Hx as [_ [line [_ <-]]].
    apply strip_trimmed.
  - intros line Hin Hsp Hx. apply Hiff in Hx. destruct Hx as [Hne _].
    apply Hne. now apply strip_all_space.
  - apply NoDup_elements.
Qed.

Lemma load_all_sent_posts_stripped_lines_witness :
  let content :=
    py " a " ++ py LF ++ py LF ++ py "b" ++ [13%N; 10%N] ++ py "  "
      ++ [13%N] ++ py "a" ++ py LF ++ py "b" in
  let w := mk_world {[ "sent_posts.txt"%string := Readable content ]} ∅ [] in
  file_lines content
  = [ py " a " ++ py LF; py LF; py "b" ++ py LF; py "  " ++ py LF;
      py "a" ++ py LF; py "b" ]
  /\ snd (load_all_sent_posts "sent_posts.txt" w) = w
  /\ forall x, x ∈ fst (load_all_sent_posts "sent_posts.txt" w)
               <-> x = py "a" \/ x = py "b".
Proof.
  intros content w.
  assert (Hlines : file_lines content
                   = [ py " a " ++ py LF; py LF; py "b" ++ py LF;
                       py "  " ++ py LF; py "a" ++ py LF; py "b" ])
    by reflexivity.
  destruct (load_all_sent_posts_stripped_lines "sent_posts.txt" w content)
    as (Hw & _ & _ & Hiff & _).
  - reflexivity.
  - split; [exact Hlines|]. split; [exact Hw|].
    intros x. rewrite Hiff, Hlines. split.
    + intros (Hne & line & Hin & Hs).
      repeat (apply elem_of_cons in Hin as [-> | Hin]);
        try (now apply elem_of_nil in Hin);
        vm_compute in Hs; subst x; auto; now destruct Hne.
    + intros [-> | ->].
      * split; [discriminate|]. exists (py " a " ++ py LF).
        split; [apply list_elem_of_here | reflexivity].
      * split; [discriminate|]. exists (py "b").
        split; [|reflexivity]. do 5 apply list_elem_of_further.
        apply list_elem_of_here.
Defined.

End HelpersFacts.

(** ** The logo *)

Module LogoFacts.

Import PyFloat FloatFacts.

(** The width of the logo is the integer part of a tenth of the width of
    the source image below 600 pixels, and of a fifth from 600 pixels on. *)
Lemma logo_width_floor pw :
  0 <= pw < 2 ^ 31 ->
  logo_width pw = Some (if pw <? 600 then pw / 10 else pw / 5).
Proof.
  intros [Hpw0 Hpw]. unfold logo_width.
  destruct (Z.eq_dec pw 0) as [-> | Hne]; [reflexivity|].
  destruct (pw <? 600).
  - apply mul_const_floor; try lia; try reflexivity.
  - apply mul_const_floor; try lia; try reflexivity.
Qed.

(** The height of the logo is the height that keeps the proportions of the
    logo file, rounded down, or one pixel less. *)
Lemma logo_height_floor lw w0 h0 :
  0 <= lw < 2 ^ 31 -> 0 < w0 < 2 ^ 31 -> 0 < h0 < 2 ^ 31 ->
  lw * h0 < 2 ^ 47 ->
  exists lh,
    logo_height lw w0 h0 = Some lh
    /\ h0 * lw / w0 - 1 <= lh <= h0 * lw / w0.
Proof.
  intros Hlw Hw Hh Hprod. unfold logo_height.
  destruct (Z.eq_dec lw 0) as [-> | Hne].
  - exists 0. rewrite Z.mul_0_r, Z.div_0_l by lia. split; [|lia].
    unfold truediv. destruct (Z.eqb_spec w0 0); [lia|].
    destruct (of_int_pos w0) as (A2 & -> & _); [lia|].
    destruct (of_int_pos h0) as (A3 & -> & _); [lia|].
    reflexivity.
  - destruct (mul_ratio_floor lw w0 h0) as (ratio & lh & -> & Hlh & Hb);
      try lia.
    exists lh. split; [exact Hlh | exact Hb].
Qed.

(** The sample image library resizes only to sizes with pixels. *)
Lemma studio_resize pw ph w0 h0 : resize_needs_pixels (studio pw ph w0 h0).
Proof.
  intros c Hc. cbn [render studio] in Hc.
  apply andb_true_iff in Hc as [Hw Hh]. split; now apply Z.ltb_lt.
Qed.

(** [add_logo_to_image] once the images are there and the arithmetic has
    given the composition [c]. *)
Lemma add_logo_to_image_rendered (E : environment) url w pw ph w0 h0 c :
  logo_exists E = true ->
  fetch_image E (trace w) url = Some (pw, ph) ->
  open_logo E = Some (w0, h0) ->
  logo_placement url pw ph w0 h0 = Some c ->
  add_logo_to_image E url w
  = if render E c then (Some c, w) else (None, log ERROR ErrorAddingLogo w).
Proof.
  intros Hl Hf Ho Hc. unfold add_logo_to_image.
  rewrite Hl, Hf. cbn [negb mbind option_bind]. rewrite Ho.
  cbn [mbind option_bind]. rewrite Hc. cbn [mbind option_bind].
  now destruct (render E c).
Qed.

(** C6, as the code has it. For a source image of width [pw] and a logo
    file of size [w0] x [h0] (sides below [2^31], and [pw * h0] below
    [2^49], which holds whenever both are below [2^24]), the compositor
    computes for the logo the width [pw / 10] when [pw < 600] and [pw / 5]
    otherwise, rounded down (50 for a width of 500, 200 for a width of
    1000), the height that keeps the proportions of the logo, rounded down
    or one pixel less, and the place 10 pixels below the top edge with the
    right side 10 pixels from the right edge. With an image library that
    resizes only to sizes with pixels, the logo is pasted there when the
    rendering succeeds and both sides are positive then, which for the
    width means a source of 10 pixels or more; with a side of 0 no logo is
    pasted, the error is logged and the compositor returns nothing. *)
Theorem logo_placement_geometry (E : environment) (url : pystr) (w : world)
    (pw ph w0 h0 : Z) :
  0 < pw < 2 ^ 31 -> 0 < w0 < 2 ^ 31 -> 0 < h0 < 2 ^ 31 ->
  pw * h0 < 2 ^ 49 ->
  resize_needs_pixels E ->
  logo_exists E = true ->
  fetch_image E (trace w) url = Some (pw, ph) ->
  open_logo E = Some (w0, h0) ->
  exists c,
    logo_placement url pw ph w0 h0 = Some c
    /\ logo_w c = (if pw <? 600 then pw / 10 else pw / 5)
    /\ h0 * logo_w c / w0 - 1 <= logo_h c <= h0 * logo_w c / w0
    /\ pos_x c + logo_w c = pw - 10
    /\ pos_y c = 10
    /\ (0 < logo_w c <-> 10 <= pw)
    /\ (render E c = true ->
        add_logo_to_image E url w = (Some c, w)
        /\ 0 < logo_w c /\ 0 < logo_h c)
    /\ (logo_w c <= 0 \/ logo_h c <= 0 \/ render E c = false ->
        add_logo_to_image E url w = (None, log ERROR ErrorAddingLogo w))
    /\ logo_width 500 = Some 50
    /\ logo_width 1000 = Some 200.
Proof.
  intros Hpw Hw Hh Hprod Hresize Hlogo Hfetch Hopen.
  assert (Hplace : exists lh,
             logo_placement url pw ph w0 h0
             = Some (mk_composition url pw ph
                       (if pw <? 600 then pw / 10 else pw / 5) lh
                       (pw - (if pw <? 600 then pw / 10 else pw / 5)
                        - LOGO_MARGIN) LOGO_MARGIN)
             /\ h0 * (if pw <? 600 then pw / 10 else pw / 5) / w0 - 1 <= lh
                <= h0 * (if pw <? 600 then pw / 10 else pw / 5) / w0).
  { unfold logo_placement.
    rewrite logo_width_floor by lia. cbn [mbind option_bind].
    set (lw := if pw <? 600 then pw / 10 else pw / 5).
    assert (Hlw : 0 <= lw /\ 5 * lw <= pw).
    { unfold lw. destruct (pw <? 600).
      - pose proof (Z.div_mod pw 10 ltac:(lia)).
        pose proof (Z.mod_pos_bound pw 10 ltac:(lia)).
        assert (0 <= pw / 10) by (apply Z.div_pos; lia). lia.
      - pose proof (Z.div_mod pw 5 ltac:(lia)).
        pose proof (Z.mod_pos_bound pw 5 ltac:(lia)).
        assert (0 <= pw / 5) by (apply Z.div_pos; lia). lia. }
    assert (Hsmall : lw * h0 < 2 ^ 47).
    { assert (5 * lw * h0 <= pw * h0)
        by (apply Z.mul_le_mono_nonneg_r; lia).
      lia. }
    destruct (logo_height_floor lw w0 h0) as (lh & Hlh & Hb); try lia.
    rewrite Hlh. cbn [mbind option_bind]. exists lh. split; [reflexivity|].
    exact Hb. }
  destruct Hplace as (lh & Hc & Hb).
  eexists. split; [exact Hc|]. cbn [logo_w logo_h pos_x pos_y].
  set (lw := if pw <? 600 then pw / 10 else pw / 5) in *.
  assert (Hpos : 0 < lw <-> 10 <= pw).
  { unfold lw. destruct (Z.ltb_spec pw 600).
    - pose proof (Z.div_mod pw 10 ltac:(lia)).
      pose proof (Z.mod_pos_bound pw 10 ltac:(lia)). lia.
    - pose proof (Z.div_mod pw 5 ltac:(lia)).
      pose proof (Z.mod_pos_bound pw 5 ltac:(lia)). lia. }
  pose proof (add_logo_to_image_rendered E url w pw ph w0 h0 _
                Hlogo Hfetch Hopen Hc) as Hadd.
  split; [reflexivity|]. split; [exact Hb|].
  split; [unfold LOGO_MARGIN; lia|]. split; [reflexivity|].
  split; [exact Hpos|]. split; [|split].
  - intros Hr. rewrite Hadd, Hr. split; [reflexivity|].
    exact (Hresize _ Hr).
  - intros Hbad. rewrite Hadd.
    destruct (render E _) eqn:Hr; [|reflexivity].
    apply Hresize in Hr. cbn [logo_w logo_h] in Hr.
    destruct Hbad as [Hbad | [Hbad | Hbad]]; [lia | lia | discriminate].
  - split; vm_compute; reflexivity.
Qed.

Lemma logo_placement_geometry_witness :
  exists c,
    add_logo_to_image (studio 500 300 100 40) (py "u") empty_world
    = (Some c, empty_world)
    /\ logo_w c = 50 /\ 19 <= logo_h c <= 20 /\ pos_x c = 440 /\ pos_y c = 10.
Proof.
  destruct (logo_placement_geometry (studio 500 300 100 40) (py "u")
              empty_world 500 300 100 40)
    as (c & Hc & Hw & Hh & Hx & Hy & _ & Hpaste & _);
    try lia; try reflexivity; try apply studio_resize.
  exists c. change (500 <? 600) with true in Hw. cbv iota in Hw.
  rewrite Hw in Hh, Hx.
  change (40 * (500 / 10) / 100) with 20 in Hh.
  change (500 / 10) with 50 in Hw, Hx.
  destruct Hpaste as (Hadd & _).
  { cbn [render studio]. apply andb_true_iff.
    split; apply Z.ltb_lt; lia. }
  repeat split; try assumption; lia.
Defined.

(** C6, the claim as it stands, fails on a source image of 5 x 5 pixels:
    the width of the logo comes out as 0, the image library refuses to
    resize to it, and no logo is pasted. The same happens to a source of
    10 x 10 pixels with a logo file of 49 x 49 pixels, whose height comes
    out as 0. *)
Lemma tiny_image_gets_no_logo :
  resize_needs_pixels (studio 5 5 100 40)
  /\ logo_placement (py "u") 5 5 100 40
     = Some (mk_composition (py "u") 5 5 0 0 (-5) 10)
  /\ add_logo_to_image (studio 5 5 100 40) (py "u") empty_world
     = (None, log ERROR ErrorAddingLogo empty_world)
  /\ logo_placement (py "u") 10 10 49 49
     = Some (mk_composition (py "u") 10 10 1 0 (-1) 10)
  /\ add_logo_to_image (studio 10 10 49 49) (py "u") empty_world
     = (None, log ERROR ErrorAddingLogo empty_world).
Proof.
  split; [apply studio_resize|].
  repeat split; vm_compute; reflexivity.
Qed.

End LogoFacts.

(** ** The feed processors *)

Module BotFacts.

Lemma only_logs_nil : only_logs [].
Proof. constructor. Qed.

Lemma only_logs_one l m : only_logs [Log l m].
Proof. repeat constructor. Qed.

Lemma only_logs_app l1 l2 : only_logs l1 -> only_logs l2 -> only_logs (l1 ++ l2).
Proof. unfold only_logs. rewrite Forall_app. tauto. Qed.

Create HintDb bot.

#[local] Hint Resolve only_logs_nil only_logs_one only_logs_app : bot.

Lemma only_logs_no_send logs d ok : only_logs logs -> Send d ok ∉ logs.
Proof.
  unfold only_logs. rewrite Forall_forall. intros H Hin.
  specialize (H _ Hin). discriminate.
Qed.

Lemma only_logs_no_sleep logs s : only_logs logs -> Sleep s ∉ logs.
Proof.
  unfold only_logs. rewrite Forall_forall. intros H Hin.
  specialize (H _ Hin). discriminate.
Qed.

Lemma only_logs_sends logs : only_logs logs -> sends logs = [].
Proof.
  induction 1 as [|ev logs Hev _ IH]; [reflexivity|].
  destruct ev; try discriminate. exact IH.
Qed.

Lemma only_logs_sleeps logs : only_logs logs -> sleeps logs = [].
Proof.
  induction 1 as [|ev logs Hev _ IH]; [reflexivity|].
  destruct ev; try discriminate. exact IH.
Qed.

(** *** What the file operations leave alone *)

Lemma save_article_frame a file w :
  exists logs,
    trace (save_article a file w) = trace w ++ logs /\ only_logs logs
    /\ sent_files (save_article a file w) = sent_files w.
Proof.
  unfold save_article, load_articles.
  destruct (article_files w !! file) as [[|v]|]; cbn [scan_ids].
  - exists [Log ERROR (ErrorReading file)]. auto with bot.
  - assert (Hlog : exists logs,
               trace (log ERROR (ErrorWriting file) w) = trace w ++ logs
               /\ only_logs logs
               /\ sent_files (log ERROR (ErrorWriting file) w) = sent_files w).
    { exists [Log ERROR (ErrorWriting file)]. auto with bot. }
    destruct v; try exact Hlog.
    destruct (scan_ids a items); try exact Hlog;
      exists []; rewrite app_nil_r; auto with bot.
  - exists []. rewrite app_nil_r. auto with bot.
Qed.





Lemma save_sent_post_frame post_id file w :
  exists logs,
    trace (save_sent_post post_id file w) = trace w ++ logs /\ only_logs logs
    /\ article_files (save_sent_post post_id file w) = article_files w.
Proof.
  unfold save_sent_post.
  destruct (sent_files w !! file) as [[|c]|]; simpl.
  - exists [Log ERROR (ErrorWriting file)]. auto with bot.
  - exists []. rewrite app_nil_r. auto with bot.
  - exists []. rewrite app_nil_r. auto with bot.
Qed.

Section Steps.

Variable E : environment.

Lemma add_logo_to_image_frame url w :
  exists logs,
    trace (snd (add_logo_to_image E url w)) = trace w ++ logs
    /\ only_logs logs
    /\ sent_files (snd (add_logo_to_image E url w)) = sent_files w
    /\ article_files (snd (add_logo_to_image E url w)) = article_files w.
Proof.
  unfold add_logo_to_image.
  destruct (negb (logo_exists E)).
  - exists []. simpl. rewrite app_nil_r. auto with bot.
  - match goal with |- context [match ?o with Some _ => _ | None => _ end] =>
      destruct o end; simpl.
    + exists []. rewrite app_nil_r. auto with bot.
    + exists [Log ERROR ErrorAddingLogo]. auto with bot.
Qed.

Lemma prepare_delivery_frame image_url caption w :
  exists logs,
    trace (snd (prepare_delivery E image_url caption w)) = trace w ++ logs
    /\ only_logs logs
    /\ sent_files (snd (prepare_delivery E image_url caption w))
       = sent_files w
    /\ article_files (snd (prepare_delivery E image_url caption w))
       = article_files w.
Proof.
  unfold prepare_delivery.
  destruct image_url as [u|]; [destruct (truthy u)|].
  - destruct (add_logo_to_image_frame u w) as (logs & H).
    exists logs. destruct (add_logo_to_image E u w) as [[img|] w']; exact H.
  - exists []. simpl. rewrite app_nil_r. auto with bot.
  - exists []. simpl. rewrite app_nil_r. auto with bot.
Qed.

(** The inner [try] block when the endpoint call raises. *)
Lemma deliver_failed k i post_id image_url caption st :
  let '(d, w1) := prepare_delivery E image_url caption (ls_world st) in
  bot_send E (trace w1) d = false ->
  deliver E k i post_id image_url caption st
  = with_world st (log ERROR (FailedToSend k) (emit (Send d false) w1)).
Proof.
  unfold deliver.
  destruct (prepare_delivery E image_url caption (ls_world st)) as [d w1].
  intros ->. reflexivity.
Qed.

(** The inner [try] block when the endpoint call returns. *)
Lemma deliver_sent k i post_id image_url caption st :
  let '(d, w1) := prepare_delivery E image_url caption (ls_world st) in
  bot_send E (trace w1) d = true ->
  deliver E k i post_id image_url caption st
  = mk_loop_state
      (let w3 := save_sent_post post_id (sent_file k)
                                (emit (Send d true) w1) in
       if (i <? MAX_ENTRIES_TO_CHECK - 1)%nat then emit (Sleep 2) w3 else w3)
      ({[post_id]} ∪ ls_sent st) (ls_found st).
Proof.
  unfold deliver.
  destruct (prepare_delivery E image_url caption (ls_world st)) as [d w1].
  intros ->. reflexivity.
Qed.

(** The record that [normalize] builds carries the id of the entry. *)
Lemma normalize_id k e post_id title tr a img cap :
  normalize E k e post_id title tr = Some (a, img, cap) ->
  a_id a = Some post_id.
Proof.
  intros Hn. destruct k; simpl in Hn;
    repeat match type of Hn with
      | context [mbind _ ?o] => destruct o; simpl in Hn; try discriminate
      end; injection Hn as <- _ _; reflexivity.
Qed.


(** Every iteration falls under one of the five cases. *)
Lemma process_entry_case k i e st :
  step_case E k i e st (process_entry E k i e st).
Proof.
  unfold process_entry.
  destruct (entry_key k e) as [post_id|] eqn:Hid;
    [|apply case_missing; now left].
  destruct (e_title e) as [title|] eqn:Ht;
    [|apply case_missing; now right].
  destruct (bool_decide (post_id ∈ ls_sent st)) eqn:Hseen.
  { apply bool_decide_eq_true in Hseen. now apply case_seen with post_id. }
  apply bool_decide_eq_false in Hseen. cbv zeta.
  change (trace (ls_world (found_state k title st)))
    with (trace (log INFO (NewFound k title) (ls_world st))).
  destruct (normalize E k e post_id title _) as [[[a img] cap]|] eqn:Hn;
    [|now apply case_abandoned with post_id].
  set (w0 := ls_world (found_state k title st)).
  set (st1 := with_world _ (save_article a (articles_file k) w0)).
  destruct (save_article_frame a (articles_file k) w0)
    as (logsA & HtrA & HlA & HsA).
  destruct (prepare_delivery_frame img cap (ls_world st1))
    as (logsB & HtrB & HlB & HsB & HaB).
  pose proof (deliver_failed k i post_id img cap st1) as Hfail.
  pose proof (deliver_sent k i post_id img cap st1) as Hsent.
  destruct (prepare_delivery E img cap (ls_world st1)) as [d w1] eqn:Hp.
  simpl in HtrB, HsB, HaB.
  assert (Htr0 : trace (ls_world st1)
                 = trace (ls_world st) ++ Log INFO (NewFound k title) :: logsA).
  { subst st1. simpl. rewrite HtrA. subst w0. simpl.
    rewrite <- !app_assoc. reflexivity. }
  destruct (bot_send E (trace w1) d) eqn:Hsend.
  - destruct (save_sent_post_frame post_id (sent_file k)
                (emit (Send d true) w1)) as (logsC & HtrC & HlC & HaC).
    apply case_delivered
      with post_id title a img cap d logsA logsB logsC st1;
      auto with bot.
    rewrite (Hsent eq_refl).
    unfold delay_after. cbn [ls_world]. cbv zeta.
    destruct (i <? MAX_ENTRIES_TO_CHECK - 1)%nat.
    + change (trace (emit (Sleep 2) ?w)) with (trace w ++ [Sleep 2]).
      rewrite HtrC.
      change (trace (emit (Send d true) w1)) with (trace w1 ++ [Send d true]).
      rewrite HtrB. subst st1. simpl. rewrite <- !app_assoc. reflexivity.
    + rewrite HtrC.
      change (trace (emit (Send d true) w1)) with (trace w1 ++ [Send d true]).
      rewrite HtrB. subst st1. simpl. rewrite <- !app_assoc. simpl.
      rewrite app_nil_r. reflexivity.
    + rewrite (Hsent eq_refl). reflexivity.
  - apply case_failed with post_id title a img cap d logsA logsB st1;
      auto with bot; rewrite (Hfail eq_refl).
    + simpl. rewrite HtrB. subst st1. simpl. rewrite <- !app_assoc.
      reflexivity.
    + simpl. rewrite HsB. subst st1. simpl. rewrite HsA. reflexivity.
    + simpl. rewrite HaB. reflexivity.
    + reflexivity.
Qed.

End Steps.

End BotFacts.

(** ** The claims about the feed processors *)

Module ProcessorFacts.

Import BotFacts.

Lemma step_events_app st st' evs :
  trace (ls_world st') = trace (ls_world st) ++ evs ->
  step_events st st' = evs.
Proof. intros H. unfold step_events. rewrite H. apply drop_app_length. Qed.

Lemma step_events_refl st : step_events st st = [].
Proof. apply step_events_app. now rewrite app_nil_r. Qed.

Lemma sends_app l1 l2 : sends (l1 ++ l2) = sends l1 ++ sends l2.
Proof. unfold sends. apply List.filter_app. Qed.

Lemma sleeps_app l1 l2 : sleeps (l1 ++ l2) = sleeps l1 ++ sleeps l2.
Proof. unfold sleeps. apply List.filter_app. Qed.

(** C1, as the code has it. An entry whose id is in the in-memory seen-set
    when the loop reaches it (the set holds the ids loaded from the
    seen-file and those added after the deliveries of this run) causes no
    delivery attempt, no change of the record files and no change of the
    seen-files, and leaves the set and the counter as they are. When the
    entry carries its title, the iteration logs that the entry was already
    sent and the loop goes on with the next entry; the title is read before
    the seen-set is consulted, so an entry without title is the case of
    C3. *)
Theorem seen_entry_skipped (E : environment) (k : feed_kind) (i : nat)
    (e : entry) (rest : list entry) (st : loop_state) (post_id : pystr) :
  entry_key k e = Some post_id ->
  post_id ∈ ls_sent st ->
  let st' := state_of (process_entry E k i e st) in
  sends (step_events st st') = []
  /\ article_files (ls_world st') = article_files (ls_world st)
  /\ sent_files (ls_world st') = sent_files (ls_world st)
  /\ ls_sent st' = ls_sent st
  /\ ls_found st' = ls_found st
  /\ (forall title, e_title e = Some title ->
        process_entry E k i e st = Next st'
        /\ step_events st st' = [Log INFO (AlreadySent k title)]
        /\ process_entries E k i (e :: rest) st
           = process_entries E k (S i) rest st').
Proof.
  intros Hid Hseen. simpl. unfold process_entry. rewrite Hid.
  destruct (e_title e) as [title|] eqn:Ht.
  - rewrite bool_decide_eq_true_2 by exact Hseen. simpl.
    assert (Hev : step_events st
                    (with_world st (log INFO (AlreadySent k title) (ls_world st)))
                  = [Log INFO (AlreadySent k title)])
      by (now apply step_events_app).
    rewrite Hev. do 5 (split; [reflexivity|]).
    intros t [= <-]. split; [reflexivity|]. split; [reflexivity|].
    reflexivity.
  - simpl. rewrite step_events_refl. do 5 (split; [reflexivity|]).
    intros t [=].
Qed.

Lemma seen_entry_skipped_witness :
  let st := start seen_world [py "a"; py "b"] in
  process_entries (sample_env [] (fun _ => true)) Crunchyroll 0
                  [news "a" "First"; news "c" "Third"] st
  = process_entries (sample_env [] (fun _ => true)) Crunchyroll 1
                    [news "c" "Third"]
                    (with_world st
                       (log INFO (AlreadySent Crunchyroll (py "First"))
                            (ls_world st))).
Proof.
  intros st.
  pose proof (seen_entry_skipped (sample_env [] (fun _ => true)) Crunchyroll 0
                (news "a" "First") [news "c" "Third"] st (py "a")) as H.
  destruct H as (_ & _ & _ & _ & _ & H).
  - reflexivity.
  - apply (bool_decide_unpack _). vm_compute. exact I.
  - destruct (H (py "First") eq_refl) as (_ & _ & Hloop). exact Hloop.
Defined.


(** C1, as the claim states it, fails: an entry whose id is in the
    seen-file but which has no title is not logged as already sent, and the
    loop does not go on to the new entry that follows it, which alone would
    be delivered. *)
Lemma seen_untitled_entry_stops_loop :
  let E := sample_env [untitled "a"; news "c" "Third"] (fun _ => true) in
  let E' := sample_env [news "c" "Third"] (fun _ => true) in
  let st := start seen_world [py "a"; py "b"] in
  fst (load_all_sent_posts CRUNCHYROLL_SENT_FILE seen_world) = ls_sent st
  /\ py "a" ∈ ls_sent st
  /\ process_entry E Crunchyroll 0 (untitled "a") st = Raise st
  /\ process_entries E Crunchyroll 0 [untitled "a"; news "c" "Third"] st
     = (st, false)
  /\ trace (check_and_send_crunchyroll_news E seen_world)
     = [Fetch CRUNCHYROLL_RSS_URL;
        Log ERROR (ErrorParsingFeed Crunchyroll);
        Log INFO (CheckCompleted Crunchyroll 0)]
  /\ length (sends (trace (check_and_send_crunchyroll_news E' seen_world)))
     = 1%nat.
Proof.
  intros E E' st.
  split; [vm_compute; reflexivity|].
  split; [apply (bool_decide_unpack _); vm_compute; exact I|].
  split; [reflexivity|]. split; [reflexivity|].
  split; vm_compute; reflexivity.
Qed.

(** The loop over a list made of two parts. *)
Lemma process_entries_app E k i pre post st :
  process_entries E k i (pre ++ post) st
  = match process_entries E k i pre st with
    | (st', true) => process_entries E k (i + length pre) post st'
    | (st', false) => (st', false)
    end.
Proof.
  revert i st. induction pre as [|e pre IH]; intros i st; simpl.
  - now rewrite Nat.add_0_r.
  - destruct (process_entry E k i e st) as [st'|st']; [|reflexivity].
    rewrite IH. now rewrite Nat.add_succ_r.
Qed.

(** Ids stay in the in-memory set once they are in it. *)
Lemma process_entry_keeps_seen E k i e st x :
  x ∈ ls_sent st -> x ∈ ls_sent (state_of (process_entry E k i e st)).
Proof.
  intros Hx.
  destruct (process_entry_case E k i e st)
    as [Hm | post_id title Hid Ht Hseen | post_id title Hid Ht Hnew Hn
        | post_id title a img cap d0 logs0 logs st_saved st'
            Hid Ht Hnew Hn Hsaved Hst' Htr0 Htr Hl0 Hl Hsf Haf Hsent
        | post_id title a img cap d0 logs0 logs logs' st_saved st'
            Hid Ht Hnew Hn Hsaved Hst' Htr0 Htr Hl0 Hl Hl' Hsent];
    simpl; try exact Hx.
  - rewrite Hsent. exact Hx.
  - rewrite Hsent. apply elem_of_union. right. exact Hx.
Qed.

Lemma process_entries_keeps_seen E k i es st x :
  x ∈ ls_sent st -> x ∈ ls_sent (fst (process_entries E k i es st)).
Proof.
  revert i st. induction es as [|e es IH]; intros i st Hx; simpl; [exact Hx|].
  pose proof (process_entry_keeps_seen E k i e st x Hx) as H.
  destruct (process_entry E k i e st) as [st'|st']; simpl in H |- *; auto.
Qed.





(** C3, as the code has it. An entry without id or without title is not
    skipped: reading the missing attribute raises, the exception leaves the
    loop, and the handler around the loop logs a feed error. The entry
    changes nothing, the entries before it keep their effects, and the
    entries after it are not processed in this run, which ends with the
    error log and the completion log. *)
Theorem missing_field_leaves_loop (E : environment) (k : feed_kind)
    (e : entry) :
  entry_key k e = None \/ e_title e = None ->
  (forall i st, process_entry E k i e st = Raise st)
  /\ (forall i pre rest st0 st,
        process_entries E k i pre st0 = (st, true) ->
        process_entries E k i (pre ++ e :: rest) st0 = (st, false))
  /\ (forall w entries pre rest st,
        feedparser_parse E (rss_url k) = Some entries ->
        firstn MAX_ENTRIES_TO_CHECK entries = pre ++ e :: rest ->
        process_entries E k 0 pre
          (mk_loop_state
             (emit (Fetch (rss_url k))
                   (snd (load_all_sent_posts (sent_file k) w)))
             (fst (load_all_sent_posts (sent_file k) w)) 0)
        = (st, true) ->
        check_and_send_feed E k w
        = log INFO (CheckCompleted k (ls_found st))
              (log ERROR (ErrorParsingFeed k) (ls_world st))).
Proof.
  intros Hmiss.
  assert (Hstep : forall i st, process_entry E k i e st = Raise st).
  { intros i st. unfold process_entry.
    destruct (entry_key k e) as [post_id|]; [|reflexivity].
    destruct Hmiss as [Hm | Hm]; [discriminate|]. now rewrite Hm. }
  assert (Hloop : forall i pre rest st0 st,
             process_entries E k i pre st0 = (st, true) ->
             process_entries E k i (pre ++ e :: rest) st0 = (st, false)).
  { intros i pre rest st0 st Hpre. rewrite process_entries_app, Hpre.
    cbn [process_entries]. now rewrite Hstep. }
  split; [exact Hstep|]. split; [exact Hloop|].
  intros w entries pre rest st Hfeed Hfirst Hpre.
  unfold check_and_send_feed.
  destruct (load_all_sent_posts (sent_file k) w) as [sent_posts w1].
  simpl in Hpre. rewrite Hfeed.
  destruct entries as [|e0 entries]; [now destruct pre|].
  rewrite Hfirst. rewrite (Hloop 0%nat pre rest _ st Hpre). reflexivity.
Qed.

Lemma missing_field_leaves_loop_witness :
  let E := sample_env [untitled "x"; news "c" "Third"] (fun _ => true) in
  check_and_send_feed E Crunchyroll empty_world
  = log INFO (CheckCompleted Crunchyroll 0)
      (log ERROR (ErrorParsingFeed Crunchyroll)
         (emit (Fetch CRUNCHYROLL_RSS_URL)
               (write_sent CRUNCHYROLL_SENT_FILE [] empty_world))).
Proof.
  intros E.
  destruct (missing_field_leaves_loop E Crunchyroll (untitled "x"))
    as (_ & _ & Hrun).
  - right. reflexivity.
  - apply (Hrun empty_world [untitled "x"; news "c" "Third"] []
                [news "c" "Third"]
                (mk_loop_state
                   (emit (Fetch CRUNCHYROLL_RSS_URL)
                         (write_sent CRUNCHYROLL_SENT_FILE [] empty_world))
                   ∅ 0)); reflexivity.
Defined.

(** C3, as the claim states it, fails: with a feed made of an entry
    without title followed by a new entry, the run delivers nothing and
    saves no record, although the second entry alone is delivered. *)
Lemma missing_title_stops_feed :
  let E := sample_env [untitled "x"; news "c" "Third"] (fun _ => true) in
  let E' := sample_env [news "c" "Third"] (fun _ => true) in
  sends (trace (check_and_send_crunchyroll_news E empty_world)) = []
  /\ article_files (check_and_send_crunchyroll_news E empty_world)
       !! CRUNCHYROLL_ARTICLES_FILE = None
  /\ length (sends (trace (check_and_send_crunchyroll_news E' empty_world)))
     = 1%nat
  /\ ~ (exists st',
          process_entry E Crunchyroll 0 (untitled "x") (start empty_world [])
          = Next st').
Proof.
  intros E E'. split; [vm_compute; reflexivity|].
  split; [vm_compute; reflexivity|].
  split; [vm_compute; reflexivity|].
  intros [st' H]. vm_compute in H. discriminate.
Qed.

Lemma delay_after_lt i : (i < 4)%nat -> delay_after i = [Sleep 2].
Proof.
  intros Hi. unfold delay_after, MAX_ENTRIES_TO_CHECK.
  destruct (Nat.ltb_spec i (5 - 1)); [reflexivity | lia].
Qed.

Lemma delay_after_ge i : (4 <= i)%nat -> delay_after i = [].
Proof.
  intros Hi. unfold delay_after, MAX_ENTRIES_TO_CHECK.
  destruct (Nat.ltb_spec i (5 - 1)); [lia | reflexivity].
Qed.

Lemma sleeps_delay_after i : sleeps (delay_after i) = delay_after i.
Proof. unfold delay_after. now destruct (_ <? _)%nat. Qed.

(** C5, as the code has it. The processor waits 2 seconds right after a
    considered entry that it delivered and that is followed by another
    considered entry; an iteration without a successful delivery (the entry
    was already seen, its delivery failed, or it was abandoned) waits not
    at all; and no delay follows the fifth considered entry. *)
Theorem delay_follows_delivery (E : environment) (k : feed_kind)
    (entries pre post : list entry) (e : entry) (st : loop_state) :
  firstn MAX_ENTRIES_TO_CHECK entries = pre ++ e :: post ->
  let st' := state_of (process_entry E k (length pre) e st) in
  ((exists d, Send d true ∈ step_events st st') -> post <> [] ->
   sleeps (step_events st st') = [Sleep 2]
   /\ last (step_events st st') = Some (Sleep 2))
  /\ ((forall d, Send d true ∉ step_events st st') ->
      sleeps (step_events st st') = [])
  /\ (length pre = 4%nat -> sleeps (step_events st st') = []).
Proof.
  intros Hfirst.
  assert (Hlen : (length pre + S (length post) <= 5)%nat).
  { pose proof (List.firstn_le_length MAX_ENTRIES_TO_CHECK entries) as H.
    rewrite Hfirst, length_app in H. simpl in H.
    unfold MAX_ENTRIES_TO_CHECK in H. lia. }
  destruct (process_entry_case E k (length pre) e st)
    as [Hm | post_id title Hid Ht Hseen | post_id title Hid Ht Hnew Hn
        | post_id title a img cap d0 logs0 logs st_saved st'
            Hid Ht Hnew Hn Hsaved Hst' Htr0 Htr Hl0 Hl Hsf Haf Hsent
        | post_id title a img cap d0 logs0 logs logs' st_saved st'
            Hid Ht Hnew Hn Hsaved Hst' Htr0 Htr Hl0 Hl Hl' Hsent];
    simpl.
  - rewrite step_events_refl. split; [|split]; try reflexivity.
    intros [d Hd]. now apply elem_of_nil in Hd.
  - rewrite (step_events_app st _ [Log INFO (AlreadySent k title)])
      by reflexivity.
    split; [|split]; try reflexivity.
    intros [d Hd]. apply list_elem_of_singleton in Hd. discriminate.
  - rewrite (step_events_app st _ [Log INFO (NewFound k title)])
      by reflexivity.
    split; [|split]; try reflexivity.
    intros [d Hd]. apply list_elem_of_singleton in Hd. discriminate.
  - rewrite (step_events_app st st'
               (Log INFO (NewFound k title)
                  :: logs0 ++ logs ++ [Send d0 false; Log ERROR (FailedToSend k)]))
      by (rewrite Htr, Htr0, <- app_assoc; reflexivity).
    assert (Hno : sleeps (Log INFO (NewFound k title)
                    :: logs0 ++ logs ++ [Send d0 false; Log ERROR (FailedToSend k)])
                  = []).
    { cbn [sleeps List.filter is_sleep]. fold (sleeps (logs0 ++ logs ++ [Send d0 false; Log ERROR (FailedToSend k)])).
      rewrite !sleeps_app, !only_logs_sleeps by assumption. reflexivity. }
    split; [|split]; try (intros; exact Hno).
    intros [d Hd]. exfalso.
    rewrite elem_of_cons, !elem_of_app, elem_of_cons, list_elem_of_singleton
      in Hd.
    destruct Hd as [H | [H | [H | [H | H]]]]; try discriminate;
      now apply only_logs_no_send in H.
  - rewrite (step_events_app st st'
               (Log INFO (NewFound k title)
                  :: logs0 ++ logs ++ Send d0 true :: logs' ++ delay_after (length pre)))
      by (rewrite Htr, Htr0, <- app_assoc; reflexivity).
    assert (Hsl : sleeps (Log INFO (NewFound k title)
                    :: logs0 ++ logs ++ Send d0 true :: logs'
                    ++ delay_after (length pre))
                  = delay_after (length pre)).
    { cbn [sleeps List.filter is_sleep].
      fold (sleeps (logs0 ++ logs ++ Send d0 true :: logs' ++ delay_after (length pre))).
      rewrite !sleeps_app, !only_logs_sleeps by assumption.
      cbn [sleeps List.filter is_sleep app].
      fold (sleeps (logs' ++ delay_after (length pre))).
      rewrite sleeps_app, only_logs_sleeps by assumption.
      apply sleeps_delay_after. }
    rewrite Hsl. split; [|split].
    + intros _ Hpost.
      assert (Hi : (length pre < 4)%nat) by (destruct post; [congruence | simpl in Hlen; lia]).
      rewrite (delay_after_lt _ Hi). split; [reflexivity|].
      change (Log INFO (NewFound k title)
                :: logs0 ++ logs ++ Send d0 true :: logs' ++ [Sleep 2])
        with ((Log INFO (NewFound k title) :: logs0)
                ++ logs ++ (Send d0 true :: logs') ++ [Sleep 2]).
      rewrite !app_assoc. apply last_snoc.
    + intros Hno. exfalso. apply (Hno d0).
      rewrite elem_of_cons, !elem_of_app, elem_of_cons. auto.
    + intros H4. apply delay_after_ge. lia.
Qed.

Lemma delay_follows_delivery_witness :
  let E := sample_env [] (fun _ => true) in
  let st := start empty_world [] in
  let st' := state_of (process_entry E Crunchyroll 0 (news "c" "Third") st) in
  sleeps (step_events st st') = [Sleep 2].
Proof.
  intros E st st'.
  destruct (delay_follows_delivery E Crunchyroll
              [news "c" "Third"; news "d" "Fourth"] [] [news "d" "Fourth"]
              (news "c" "Third") st) as (H & _ & _).
  - reflexivity.
  - apply H.
    + exists (SendMessage
                (caption_of Crunchyroll (py "Third") (py "text") None)).
      vm_compute. repeat constructor.
    + discriminate.
Defined.

(** C5, as the claim states it, fails: two considered entries that are
    both already seen are processed without any delay between them. *)
Lemma no_delay_between_seen_entries :
  let feed := [news "a" "First"; news "b" "Second"] in
  let E := sample_env feed (fun _ => true) in
  length (firstn MAX_ENTRIES_TO_CHECK feed) = 2%nat
  /\ sleeps (trace (check_and_send_crunchyroll_news E seen_world)) = []
  /\ trace (check_and_send_crunchyroll_news E seen_world)
     = [Fetch CRUNCHYROLL_RSS_URL;
        Log INFO (AlreadySent Crunchyroll (py "First"));
        Log INFO (AlreadySent Crunchyroll (py "Second"));
        Log INFO (CheckCompleted Crunchyroll 0)].
Proof.
  intros feed E. split; [reflexivity|].
  split; vm_compute; reflexivity.
Qed.

(** C9. When the token or the chat identifier is missing (absent or
    empty), a run logs the fatal error and does nothing else: no feed is
    fetched, no delivery is attempted, no file is touched. *)
Theorem missing_configuration_stops_run (E : environment) (w : world) :
  truthy_opt (TELEGRAM_TOKEN E) = false
  \/ truthy_opt (TELEGRAM_CHAT_ID E) = false ->
  check_and_send_content E w = log ERROR FatalNotSet w
  /\ trace (check_and_send_content E w) = trace w ++ [Log ERROR FatalNotSet]
  /\ fetches (trace (check_and_send_content E w)) = fetches (trace w)
  /\ sends (trace (check_and_send_content E w)) = sends (trace w)
  /\ sent_files (check_and_send_content E w) = sent_files w
  /\ article_files (check_and_send_content E w) = article_files w.
Proof.
  intros Hmiss.
  assert (H : check_and_send_content E w = log ERROR FatalNotSet w).
  { unfold check_and_send_content.
    destruct Hmiss as [-> | ->]; [reflexivity|].
    now rewrite orb_true_r. }
  rewrite H. split; [reflexivity|]. split; [reflexivity|].
  split.
  { simpl. unfold fetches. rewrite List.filter_app. simpl. apply app_nil_r. }
  split.
  { simpl. rewrite sends_app. simpl. apply app_nil_r. }
  split; reflexivity.
Qed.

Lemma missing_configuration_stops_run_witness :
  let E := mk_environment None (Some (py "chat"))
             (fun _ => Some [news "c" "Third"]) (fun h => h) (fun _ => None)
             (fun _ => py "now") false (fun _ _ => None) None
             (fun _ => true) (fun _ _ => true) in
  trace (check_and_send_content E empty_world) = [Log ERROR FatalNotSet].
Proof.
  intros E.
  destruct (missing_configuration_stops_run E empty_world) as (_ & H & _).
  - left. reflexivity.
  - exact H.
Defined.

End ProcessorFacts.

(** * Further properties *)

(** ** The seen-file *)

Module SeenFileFacts.

Lemma universal_newlines_app_plain a b :
  Forall (fun c => c <> 13%N) a ->
  universal_newlines (a ++ b) = a ++ universal_newlines b.
Proof.
  induction 1 as [|c a Hc _ IH]; [reflexivity|].
  simpl app. cbn [universal_newlines].
  destruct (N.eqb_spec c 13) as [-> | _]; [congruence|]. now rewrite IH.
Qed.

(** Translated text holds no carriage return. *)
Lemma universal_newlines_no_cr s :
  Forall (fun c => c <> 13%N) (universal_newlines s).
Proof.
  remember (length s) as n eqn:Hn. revert s Hn.
  induction n as [n IH] using lt_wf_ind. intros s Hn.
  destruct s as [|c s]; [constructor|]. cbn [universal_newlines].
  destruct (N.eqb_spec c 13) as [-> | Hc].
  - destruct s as [|d s]; [repeat constructor; discriminate|].
    destruct (d =? 10)%N.
    + constructor; [discriminate|]. apply (IH (length s)); simpl in *; lia.
    + constructor; [discriminate|]. apply (IH (length (d :: s))); simpl in *; lia.
  - constructor; [exact Hc|]. apply (IH (length s)); simpl in *; lia.
Qed.

Lemma universal_newlines_plain s :
  Forall (fun c => c <> 13%N) s -> universal_newlines s = s.
Proof.
  intros H. rewrite <- (app_nil_r s) at 1.
  rewrite universal_newlines_app_plain by exact H. simpl. apply app_nil_r.
Qed.

(** Translating twice is translating once. *)
Lemma universal_newlines_idem s :
  universal_newlines (universal_newlines s) = universal_newlines s.
Proof. apply universal_newlines_plain, universal_newlines_no_cr. Qed.

Lemma lines_from_plain a cur rest :
  Forall (fun c => c <> 10%N) a ->
  lines_from cur (a ++ 10%N :: rest)
  = (rev cur ++ a ++ [10%N]) :: lines_from [] rest.
Proof.
  intros Ha. revert cur. induction Ha as [|c a Hc _ IH]; intros cur.
  - simpl. reflexivity.
  - simpl app. cbn [lines_from].
    destruct (N.eqb_spec c 10) as [-> | _]; [congruence|].
    rewrite IH. simpl. now rewrite <- app_assoc.
Qed.

(** The lines of a file to which [save_sent_post] has prepended an id that
    fits on one line: the id, then the lines the file had. *)
Lemma file_lines_prepend post_id content :
  no_linebreak post_id ->
  file_lines (post_id ++ py LF ++ universal_newlines content)
  = (post_id ++ py LF) :: file_lines content.
Proof.
  intros Hid. unfold file_lines.
  assert (Hcr : Forall (fun c => c <> 13%N) post_id)
    by (eapply Forall_impl; [exact Hid | intros c [_ H]; exact H]).
  assert (Hlf : Forall (fun c => c <> 10%N) post_id)
    by (eapply Forall_impl; [exact Hid | intros c [H _]; exact H]).
  rewrite universal_newlines_app_plain by exact Hcr.
  change (py LF ++ universal_newlines content)
    with (10%N :: universal_newlines content).
  cbn [universal_newlines]. change (10 =? 13)%N with false. cbv iota.
  rewrite universal_newlines_idem.
  rewrite lines_from_plain by exact Hlf. reflexivity.
Qed.

Lemma lstrip_space_prefix sp s : all_space sp -> lstrip (sp ++ s) = lstrip s.
Proof.
  intros H. rewrite lstrip_app, (lstrip_all_space _ H). reflexivity.
Qed.

(** White space after a string does not survive [strip]. *)
Lemma strip_space_suffix s sp : all_space sp -> strip (s ++ sp) = strip s.
Proof.
  intros Hsp. unfold strip. rewrite lstrip_app.
  destruct (lstrip s) as [|c t] eqn:Hs.
  - rewrite (lstrip_all_space _ Hsp). reflexivity.
  - unfold rstrip. rewrite rev_app_distr.
    rewrite lstrip_space_prefix by (now apply all_space_rev). reflexivity.
Qed.


Lemma strip_of_trimmed s : trimmed s -> strip s = s.
Proof.
  intros [Hh Hl]. unfold strip. rewrite (lstrip_trimmed _ Hh).
  unfold rstrip. rewrite lstrip_trimmed.
  - apply rev_involutive.
  - intros c. rewrite head_rev_last. apply Hl.
Qed.

Lemma strip_keeps (P : N -> Prop) s : Forall P s -> Forall P (strip s).
Proof.
  intros H. destruct (strip_decompose s) as (l & r & Heq & _).
  rewrite Heq in H. apply Forall_app in H as [_ H].
  now apply Forall_app in H as [H _].
Qed.

(** A line of a text ends with its line feed, or is the last line; apart
    from that it holds no line feed. *)
Lemma lines_from_shape s cur line :
  Forall (fun c => c <> 10%N) cur ->
  line ∈ lines_from cur s ->
  exists body, Forall (fun c => c <> 10%N) body
               /\ (line = body ++ [10%N] \/ line = body).
Proof.
  revert cur. induction s as [|c s IH]; intros cur Hcur Hin; simpl in Hin.
  - destruct cur as [|x cur]; simpl in Hin; [now apply elem_of_nil in Hin|].
    apply list_elem_of_singleton in Hin. exists line. split; [|now right].
    subst line. apply Forall_rev in Hcur. exact Hcur.
  - destruct (N.eqb_spec c 10) as [-> | Hc].
    + apply elem_of_cons in Hin as [-> | Hin].
      * exists (rev cur). split; [now apply Forall_rev | left; reflexivity].
      * apply (IH [] ltac:(constructor) Hin).
    + apply (IH (c :: cur)); [constructor; assumption | exact Hin].
Qed.

(** The set loaded after [save_sent_post]. *)
Lemma load_after_save post_id file w :
  sent_files w !! file <> Some Unreadable ->
  no_linebreak post_id ->
  fst (load_all_sent_posts file (save_sent_post post_id file w))
  = (if truthy (strip post_id) then {[strip post_id]} else ∅)
      ∪ fst (load_all_sent_posts file w).
Proof.
  intros Hfile Hid.
  assert (Hstrip : strip (post_id ++ py LF) = strip post_id).
  { apply strip_space_suffix. repeat constructor. }
  unfold save_sent_post.
  destruct (sent_files w !! file) as [[|content]|] eqn:Hf; [congruence| |];
    unfold load_all_sent_posts; rewrite Hf;
    cbn [write_sent sent_files]; rewrite lookup_insert_eq; cbn [fst].
  - rewrite file_lines_prepend by exact Hid. cbn [List.filter].
    rewrite Hstrip. destruct (truthy (strip post_id)).
    + cbn [List.map]. rewrite Hstrip.
      rewrite list_to_set_cons, ?list_to_set_nil. reflexivity.
    + now rewrite union_empty_l_L.
  - pose proof (file_lines_prepend post_id [] Hid) as Hl.
    cbn [universal_newlines] in Hl. rewrite app_nil_r in Hl. rewrite Hl.
    change (file_lines []) with (@nil pystr).
    cbn [List.filter]. rewrite Hstrip. destruct (truthy (strip post_id)).
    + cbn [List.map]. rewrite Hstrip.
      rewrite list_to_set_cons, ?list_to_set_nil. reflexivity.
    + now rewrite union_empty_l_L.
Qed.

(** A clean id is in the set loaded after it was saved. *)
Lemma clean_id_loaded_after_save post_id file w :
  sent_files w !! file <> Some Unreadable ->
  no_linebreak post_id -> post_id <> [] -> trimmed post_id ->
  post_id ∈ fst (load_all_sent_posts file (save_sent_post post_id file w)).
Proof.
  intros Hfile Hid Hne Htrim.
  rewrite load_after_save by assumption.
  rewrite (strip_of_trimmed _ Htrim).
  destruct post_id; [congruence|]. simpl. apply elem_of_union. left.
  now apply elem_of_singleton.
Qed.

(** X1. Marking an id and loading the seen-file again. When the seen-file
    is absent or readable and the id fits on one line, the set loaded after
    [save_sent_post] is the set loaded before plus the stripped id (plus
    nothing when the id is blank); in particular a trimmed, non-empty id
    is found again. *)
Theorem marked_id_is_loaded (post_id : pystr) (file : string) (w : world) :
  sent_files w !! file <> Some Unreadable ->
  no_linebreak post_id ->
  fst (load_all_sent_posts file (save_sent_post post_id file w))
  = (if truthy (strip post_id) then {[strip post_id]} else ∅)
      ∪ fst (load_all_sent_posts file w)
  /\ (post_id <> [] -> trimmed post_id ->
      post_id ∈ fst (load_all_sent_posts file (save_sent_post post_id file w))).
Proof.
  intros Hfile Hid. split.
  - now apply load_after_save.
  - intros Hne Htrim. now apply clean_id_loaded_after_save.
Qed.

Lemma marked_id_is_loaded_witness :
  py "id-7" ∈ fst (load_all_sent_posts "sent_posts.txt"
                     (save_sent_post (py "id-7") "sent_posts.txt" seen_world)).
Proof.
  apply (marked_id_is_loaded (py "id-7") "sent_posts.txt" seen_world).
  - vm_compute. discriminate.
  - repeat constructor; discriminate.
  - discriminate.
  - split; intros c H; vm_compute in H; injection H as <-; reflexivity.
Defined.

(** X2. Whatever the state of the seen-file, every id that
    [load_all_sent_posts] returns is non-empty, trimmed and free of line
    breaks: an id that is empty, has white space at an end or holds a line
    break is never recognised from the file. *)
Theorem loaded_ids_are_clean (file : string) (w : world) (x : pystr) :
  x ∈ fst (load_all_sent_posts file w) ->
  x <> [] /\ trimmed x /\ no_linebreak x.
Proof.
  unfold load_all_sent_posts.
  destruct (sent_files w !! file) as [[|content]|]; simpl;
    try (intros H; now apply elem_of_empty in H).
  rewrite elem_of_list_to_set, list_elem_of_In, in_map_iff.
  intros (line & <- & Hin). apply filter_In in Hin as [Hin Ht].
  split; [destruct (strip line); [discriminate | discriminate]|].
  split; [apply strip_trimmed|].
  apply list_elem_of_In in Hin.
  assert (Hcr : Forall (fun c => c <> 13%N) line).
  { pose proof (universal_newlines_no_cr content) as Hno.
    rewrite <- file_lines_concat in Hno. rewrite Forall_concat in Hno.
    rewrite Forall_forall in Hno. now apply Hno. }
  unfold file_lines in Hin.
  destruct (lines_from_shape _ [] line ltac:(constructor) Hin)
    as (body & Hbody & Hline).
  assert (Hs : strip line = strip body).
  { destruct Hline as [-> | ->]; [|reflexivity].
    apply strip_space_suffix. repeat constructor. }
  unfold no_linebreak. rewrite Forall_forall. intros c Hc. split.
  - rewrite Hs in Hc. pose proof (strip_keeps _ _ Hbody) as Hk.
    rewrite Forall_forall in Hk. now apply Hk.
  - pose proof (strip_keeps _ _ Hcr) as Hk.
    rewrite Forall_forall in Hk. now apply Hk.
Qed.

Lemma loaded_ids_are_clean_witness :
  py "a" <> [] /\ trimmed (py "a") /\ no_linebreak (py "a").
Proof.
  apply (loaded_ids_are_clean CRUNCHYROLL_SENT_FILE seen_world (py "a")).
  apply (bool_decide_unpack _). vm_compute. exact I.
Defined.

(** X3. [save_sent_post] prepends. On a readable seen-file and for an id
    that fits on one line, the rewritten file has the new id as its first
    line, followed by the lines it had, in their order; no other file
    changes and nothing is logged. *)
Theorem save_sent_post_prepends (post_id : pystr) (file : string) (w : world)
    (content : pystr) :
  sent_files w !! file = Some (Readable content) ->
  no_linebreak post_id ->
  exists content',
    sent_files (save_sent_post post_id file w)
    = <[file := Readable content']> (sent_files w)
    /\ file_lines content' = (post_id ++ py LF) :: file_lines content
    /\ article_files (save_sent_post post_id file w) = article_files w
    /\ trace (save_sent_post post_id file w) = trace w.
Proof.
  intros Hf Hid. unfold save_sent_post. rewrite Hf.
  exists (post_id ++ py LF ++ universal_newlines content).
  split; [reflexivity|]. split; [now apply file_lines_prepend|].
  split; reflexivity.
Qed.

Lemma save_sent_post_prepends_witness :
  exists content',
    sent_files (save_sent_post (py "c") CRUNCHYROLL_SENT_FILE seen_world)
    !! CRUNCHYROLL_SENT_FILE = Some (Readable content')
    /\ file_lines content' = [py "c" ++ py LF; py "a" ++ py LF; py "b" ++ py LF].
Proof.
  destruct (save_sent_post_prepends (py "c") CRUNCHYROLL_SENT_FILE seen_world
              (py "a" ++ py LF ++ py "b" ++ py LF))
    as (content' & Hs & Hl & _).
  - reflexivity.
  - repeat constructor; discriminate.
  - exists content'. split.
    + rewrite Hs. apply lookup_insert_eq.
    + rewrite Hl. reflexivity.
Defined.




Lemma save_sent_post_other post_id file file' w :
  file <> file' ->
  sent_files (save_sent_post post_id file w) !! file' = sent_files w !! file'.
Proof.
  intros Hne. unfold save_sent_post.
  destruct (sent_files w !! file) as [[|c]|]; simpl;
    rewrite ?lookup_insert_ne by exact Hne; reflexivity.
Qed.

End SeenFileFacts.

(** ** The record files *)

Module RecordFileFacts.

Lemma save_article_other a file file' w :
  file <> file' ->
  article_files (save_article a file w) !! file' = article_files w !! file'.
Proof.
  intros Hne.
  destruct (HelpersFacts.save_article_files a file w) as [-> | ->];
    [reflexivity|].
  now rewrite lookup_insert_ne.
Qed.





End RecordFileFacts.

(** ** Runs of the processors *)

Module RunFacts.

Import BotFacts ProcessorFacts SeenFileFacts RecordFileFacts.

Lemma only_logs_fetches logs : only_logs logs -> fetches logs = [].
Proof.
  induction 1 as [|ev logs Hev _ IH]; [reflexivity|].
  destruct ev; try discriminate. exact IH.
Qed.

Lemma fetches_app l1 l2 : fetches (l1 ++ l2) = fetches l1 ++ fetches l2.
Proof. unfold fetches. apply List.filter_app. Qed.

Lemma sends_delay_after i : sends (delay_after i) = [].
Proof. unfold delay_after. now destruct (_ <? _)%nat. Qed.

Lemma fetches_delay_after i : fetches (delay_after i) = [].
Proof. unfold delay_after. now destruct (_ <? _)%nat. Qed.

Lemma length_delay_after i :
  length (delay_after i) = if (i <? 4)%nat then 1%nat else 0%nat.
Proof.
  unfold delay_after, MAX_ENTRIES_TO_CHECK. change (5 - 1)%nat with 4%nat.
  now destruct (i <? 4)%nat.
Qed.

(** Logs count neither as fetches, nor as deliveries, nor as delays. *)
Ltac logs_away :=
  repeat match goal with
    | H : only_logs ?l |- _ =>
        rewrite ?(only_logs_fetches l H), ?(only_logs_sends l H),
          ?(only_logs_sleeps l H);
        clear H
    end.

(** What one iteration adds to the trace: no fetch, at most one delivery
    attempt, and a delay only after a delivery and before index 4. *)
Lemma process_entry_events E k i e st :
  exists evs,
    trace (ls_world (state_of (process_entry E k i e st)))
    = trace (ls_world st) ++ evs
    /\ fetches evs = []
    /\ (length (sends evs) <= 1)%nat
    /\ (length (sleeps evs) <= if (i <? 4)%nat then 1 else 0)%nat
    /\ (length (sleeps evs) <= length (sends evs))%nat.
Proof.
  destruct (process_entry_case E k i e st)
    as [Hm | post_id title Hid Ht Hseen | post_id title Hid Ht Hnew Hn
        | post_id title a img cap d0 logs0 logs st_saved st'
            Hid Ht Hnew Hn Hsaved Hst' Htr0 Htr Hl0 Hl Hsf Haf Hsent
        | post_id title a img cap d0 logs0 logs logs' st_saved st'
            Hid Ht Hnew Hn Hsaved Hst' Htr0 Htr Hl0 Hl Hl' Hsent];
    cbn [state_of].
  - exists []. rewrite app_nil_r. repeat split; simpl; try lia;
      destruct (i <? 4)%nat; lia.
  - exists [Log INFO (AlreadySent k title)]. repeat split; simpl; try lia;
      destruct (i <? 4)%nat; lia.
  - exists [Log INFO (NewFound k title)]. repeat split; simpl; try lia;
      destruct (i <? 4)%nat; lia.
  - exists (Log INFO (NewFound k title)
              :: logs0 ++ logs ++ [Send d0 false; Log ERROR (FailedToSend k)]).
    split; [rewrite Htr, Htr0, <- app_assoc; reflexivity|].
    change (Log INFO (NewFound k title)
              :: logs0 ++ logs ++ [Send d0 false; Log ERROR (FailedToSend k)])
      with ([Log INFO (NewFound k title)]
              ++ logs0 ++ logs ++ [Send d0 false; Log ERROR (FailedToSend k)]).
    rewrite !fetches_app, !sends_app, !sleeps_app.
    logs_away.
    simpl. repeat split; try lia; destruct (i <? 4)%nat; lia.
  - exists (Log INFO (NewFound k title)
              :: logs0 ++ logs ++ Send d0 true :: logs' ++ delay_after i).
    split; [rewrite Htr, Htr0, <- app_assoc; reflexivity|].
    change (Log INFO (NewFound k title)
              :: logs0 ++ logs ++ Send d0 true :: logs' ++ delay_after i)
      with ([Log INFO (NewFound k title)]
              ++ logs0 ++ logs ++ [Send d0 true] ++ logs' ++ delay_after i).
    rewrite !fetches_app, !sends_app, !sleeps_app.
    logs_away.
    rewrite fetches_delay_after, sends_delay_after, sleeps_delay_after.
    simpl. rewrite length_delay_after.
    repeat split; try lia; destruct (i <? 4)%nat; lia.
Qed.

(** What a loop adds to the trace. *)
Lemma process_entries_events E k es : forall i st,
  exists evs,
    trace (ls_world (fst (process_entries E k i es st)))
    = trace (ls_world st) ++ evs
    /\ fetches evs = []
    /\ (length (sends evs) <= length es)%nat
    /\ (length (sleeps evs) <= 4 - i)%nat
    /\ (length (sleeps evs) <= length (sends evs))%nat.
Proof.
  induction es as [|e es IH]; intros i st; cbn [process_entries].
  - exists []. rewrite app_nil_r. repeat split; simpl; lia.
  - destruct (process_entry_events E k i e st)
      as (ev1 & Htr1 & Hf1 & Hs1 & Hz1 & Hzs1).
    destruct (process_entry E k i e st) as [st1 | st1]; cbn [state_of] in Htr1.
    + destruct (IH (S i) st1) as (ev2 & Htr2 & Hf2 & Hs2 & Hz2 & Hzs2).
      exists (ev1 ++ ev2). rewrite Htr2, Htr1, <- app_assoc.
      rewrite fetches_app, sends_app, sleeps_app, !length_app, Hf1, Hf2.
      repeat split; simpl; try lia;
        destruct (Nat.ltb_spec i 4); lia.
    + exists ev1. cbn [fst]. rewrite Htr1.
      repeat split; simpl; try lia; try assumption;
        destruct (Nat.ltb_spec i 4); lia.
Qed.

Lemma load_all_sent_posts_frame file w :
  exists logs,
    trace (snd (load_all_sent_posts file w)) = trace w ++ logs
    /\ only_logs logs
    /\ article_files (snd (load_all_sent_posts file w)) = article_files w
    /\ (forall file', file <> file' ->
          sent_files (snd (load_all_sent_posts file w)) !! file'
          = sent_files w !! file').
Proof.
  unfold load_all_sent_posts.
  destruct (sent_files w !! file) as [[|c]|]; simpl.
  - exists [Log ERROR (ErrorReading file)].
    repeat split; try reflexivity. apply only_logs_one.
  - exists []. rewrite app_nil_r.
    repeat split; try reflexivity. apply only_logs_nil.
  - exists []. rewrite app_nil_r.
    split; [reflexivity|]. split; [apply only_logs_nil|].
    split; [reflexivity|].
    intros file' Hne. now rewrite lookup_insert_ne.
Qed.

(** The events of one run of a feed processor: it starts with the logs of
    [load_all_sent_posts], fetches the feed once, and then holds no other
    fetch, at most 5 delivery attempts and at most 4 delays. *)
Lemma check_and_send_feed_events E k w :
  exists logs evs,
    trace (check_and_send_feed E k w)
    = trace w ++ logs ++ Fetch (rss_url k) :: evs
    /\ only_logs logs
    /\ fetches evs = []
    /\ (length (sends evs) <= 5)%nat
    /\ (length (sleeps evs) <= 4)%nat
    /\ (length (sleeps evs) <= length (sends evs))%nat.
Proof.
  unfold check_and_send_feed.
  destruct (load_all_sent_posts_frame (sent_file k) w)
    as (logs & Htr & Hl & _).
  destruct (load_all_sent_posts (sent_file k) w) as [sent_posts w1].
  cbn [snd] in Htr. exists logs.
  destruct (feedparser_parse E (rss_url k)) as [[|e0 entries]|].
  - exists [Log WARNING (NoEntriesFound k)]. simpl. rewrite Htr.
    rewrite <- !app_assoc. repeat split; simpl; auto; lia.
  - set (es := firstn MAX_ENTRIES_TO_CHECK (e0 :: entries)).
    set (st0 := mk_loop_state (emit (Fetch (rss_url k)) w1) sent_posts 0).
    destruct (process_entries_events E k es 0 st0)
      as (evs & Htr2 & Hf & Hs & Hz & Hzs).
    assert (Hes : (length es <= 5)%nat)
      by apply List.firstn_le_length.
    destruct (process_entries E k 0 es st0) as [st [|]]; cbn [fst] in Htr2.
    + exists (evs ++ [Log INFO (CheckCompleted k (ls_found st))]).
      simpl. rewrite Htr2. unfold st0. simpl. rewrite Htr.
      rewrite <- !app_assoc. simpl.
      rewrite fetches_app, sends_app, sleeps_app, !length_app, Hf. simpl.
      repeat split; auto; lia.
    + exists (evs ++ [Log ERROR (ErrorParsingFeed k);
                      Log INFO (CheckCompleted k (ls_found st))]).
      simpl. rewrite Htr2. unfold st0. simpl. rewrite Htr.
      rewrite <- !app_assoc. simpl.
      rewrite fetches_app, sends_app, sleeps_app, !length_app, Hf. simpl.
      repeat split; auto; lia.
  - exists [Log ERROR (ErrorParsingFeed k); Log INFO (CheckCompleted k 0)].
    simpl. rewrite Htr. rewrite <- !app_assoc.
    repeat split; simpl; auto; lia.
Qed.


(** X5. One run of a feed processor is bounded, whatever the feed holds and
    whatever fails: it fetches its feed exactly once, makes at most 5
    delivery attempts and waits at most 4 times, never more often than it
    attempted a delivery. *)
Theorem feed_run_is_bounded (E : environment) (k : feed_kind) (w : world) :
  exists evs,
    trace (check_and_send_feed E k w) = trace w ++ evs
    /\ fetches evs = [Fetch (rss_url k)]
    /\ (length (sends evs) <= 5)%nat
    /\ (length (sleeps evs) <= 4)%nat
    /\ (length (sleeps evs) <= length (sends evs))%nat.
Proof.
  destruct (check_and_send_feed_events E k w)
    as (logs & evs & Htr & Hl & Hf & Hs & Hz & Hzs).
  exists (logs ++ Fetch (rss_url k) :: evs). split; [exact Htr|].
  change (logs ++ Fetch (rss_url k) :: evs)
    with (logs ++ [Fetch (rss_url k)] ++ evs).
  rewrite !fetches_app, !sends_app, !sleeps_app, Hf.
  logs_away. simpl. auto.
Qed.

(** X6. With both configuration values present, a run announces itself,
    runs the news processor and then the video processor, and logs its
    end: both feeds are fetched, in this order and once each, whatever
    happens while the first one is processed, and the run makes at most 10
    delivery attempts. *)
Theorem configured_run_fetches_both_feeds (E : environment) (w : world) :
  truthy_opt (TELEGRAM_TOKEN E) = true ->
  truthy_opt (TELEGRAM_CHAT_ID E) = true ->
  exists evs,
    trace (check_and_send_content E w)
    = trace w ++ Log INFO StartingRun :: evs ++ [Log INFO RunFinished]
    /\ fetches evs = [Fetch CRUNCHYROLL_RSS_URL; Fetch YOUTUBE_RSS_URL]
    /\ (length (sends evs) <= 10)%nat
    /\ (length (sleeps evs) <= 8)%nat.
Proof.
  intros Htok Hchat. unfold check_and_send_content. rewrite Htok, Hchat.
  cbn [negb orb]. cbv zeta.
  unfold check_and_send_crunchyroll_news, check_and_send_youtube_video.
  set (w1 := log INFO StartingRun w).
  destruct (check_and_send_feed_events E Crunchyroll w1)
    as (logs1 & evs1 & Htr1 & Hl1 & Hf1 & Hs1 & Hz1 & _).
  destruct (check_and_send_feed_events E YouTube
              (check_and_send_feed E Crunchyroll w1))
    as (logs2 & evs2 & Htr2 & Hl2 & Hf2 & Hs2 & Hz2 & _).
  exists ((logs1 ++ Fetch CRUNCHYROLL_RSS_URL :: evs1)
            ++ logs2 ++ Fetch YOUTUBE_RSS_URL :: evs2).
  split.
  - cbn [log emit trace]. rewrite Htr2, Htr1. unfold w1. cbn [log emit trace].
    rewrite <- !app_assoc. reflexivity.
  - change (Fetch CRUNCHYROLL_RSS_URL :: evs1)
      with ([Fetch CRUNCHYROLL_RSS_URL] ++ evs1).
    change (Fetch YOUTUBE_RSS_URL :: evs2)
      with ([Fetch YOUTUBE_RSS_URL] ++ evs2).
    rewrite !fetches_app, !sends_app, !sleeps_app, !length_app, Hf1, Hf2.
    logs_away. simpl. repeat split; lia.
Qed.

Lemma configured_run_fetches_both_feeds_witness :
  fetches (trace (check_and_send_content
                    (sample_env [untitled "x"] (fun _ => true)) empty_world))
  = [Fetch CRUNCHYROLL_RSS_URL; Fetch YOUTUBE_RSS_URL].
Proof.
  destruct (configured_run_fetches_both_feeds
              (sample_env [untitled "x"] (fun _ => true)) empty_world)
    as (evs & Htr & Hf & _); [reflexivity | reflexivity |].
  rewrite Htr.
  change (trace empty_world ++ Log INFO StartingRun :: evs ++ [Log INFO RunFinished])
    with ([Log INFO StartingRun] ++ evs ++ [Log INFO RunFinished]).
  rewrite !fetches_app, Hf. reflexivity.
Defined.

(** X7. A feed that cannot be parsed or that has no entry leads to no
    delivery attempt, no record and no new seen-id: the record files are
    as before and so is every seen-file that existed (a missing seen-file
    is created empty). The run ends with the warning alone for an empty
    feed, and with the error log and a completion log that counts 0 for a
    feed that cannot be parsed. *)
Theorem feed_without_entries (E : environment) (k : feed_kind) (w : world) :
  feedparser_parse E (rss_url k) = None
  \/ feedparser_parse E (rss_url k) = Some [] ->
  sends (trace (check_and_send_feed E k w)) = sends (trace w)
  /\ article_files (check_and_send_feed E k w) = article_files w
  /\ (forall file, sent_files w !! file <> None ->
        sent_files (check_and_send_feed E k w) !! file = sent_files w !! file)
  /\ (sent_files w !! sent_file k = None ->
      sent_files (check_and_send_feed E k w)
      = <[sent_file k := Readable []]> (sent_files w))
  /\ (feedparser_parse E (rss_url k) = Some [] ->
      exists tr, trace (check_and_send_feed E k w)
                 = tr ++ [Fetch (rss_url k); Log WARNING (NoEntriesFound k)])
  /\ (feedparser_parse E (rss_url k) = None ->
      exists tr, trace (check_and_send_feed E k w)
                 = tr ++ [Fetch (rss_url k); Log ERROR (ErrorParsingFeed k);
                          Log INFO (CheckCompleted k 0)]).
Proof.
  intros Hfeed. unfold check_and_send_feed, load_all_sent_posts.
  assert (Hs : forall l tr, only_logs l -> sends (tr ++ l) = sends tr)
    by (intros l tr Hl; rewrite sends_app, (only_logs_sends _ Hl);
        apply app_nil_r).
  destruct Hfeed as [Hfeed | Hfeed]; rewrite Hfeed;
    destruct (sent_files w !! sent_file k) as [[|c]|] eqn:Hf;
    cbn [log emit write_sent trace sent_files article_files];
    rewrite <- ?app_assoc; cbn [app].
  all: split; [rewrite sends_app; simpl; apply app_nil_r|].
  all: split; [reflexivity|].
  all: split;
    [intros file Hfile;
     first [reflexivity
           | destruct (decide (sent_file k = file)) as [<- | Hne];
             [congruence | now rewrite lookup_insert_ne]]|].
  all: split; [intros Hnone; first [reflexivity | discriminate]|].
  all: split; intros Hp;
    first [discriminate
          | exists (trace w); reflexivity
          | eexists (trace w ++ [_]); rewrite <- app_assoc; reflexivity].
Qed.

Lemma feed_without_entries_witness :
  sends (trace (check_and_send_feed (sample_env [] (fun _ => true))
                                    Crunchyroll seen_world)) = [].
Proof.
  destruct (feed_without_entries (sample_env [] (fun _ => true)) Crunchyroll
              seen_world) as (H & _).
  - right. reflexivity.
  - exact H.
Defined.


(** *** Entries that are already seen *)

Lemma world_eta w : mk_world (sent_files w) (article_files w) (trace w) = w.
Proof. now destruct w. Qed.

(** A loop over entries that are all seen only logs. *)
Lemma process_entries_all_seen E k es : forall i st,
  Forall (seen_in k (ls_sent st)) es ->
  exists logs,
    only_logs logs /\ length logs = length es
    /\ process_entries E k i es st
       = (with_world st
            (mk_world (sent_files (ls_world st)) (article_files (ls_world st))
                      (trace (ls_world st) ++ logs)),
          true).
Proof.
  induction es as [|e es IH]; intros i st Hall; cbn [process_entries].
  - exists []. split; [apply only_logs_nil|]. split; [reflexivity|].
    rewrite app_nil_r, world_eta. now destruct st.
  - apply Forall_cons in Hall as [(post_id & title & Hid & Ht & Hin) Hall].
    unfold process_entry. rewrite Hid, Ht.
    rewrite bool_decide_eq_true_2 by exact Hin.
    destruct (IH (S i)
                (with_world st (log INFO (AlreadySent k title) (ls_world st)))
                Hall) as (logs & Hl & Hlen & Heq).
    exists (Log INFO (AlreadySent k title) :: logs).
    split; [constructor; [reflexivity | exact Hl]|].
    split; [simpl; now rewrite Hlen|].
    rewrite Heq. simpl. rewrite <- app_assoc. reflexivity.
Qed.

(** X8. Running a processor again delivers nothing again. When every
    considered entry of a non-empty feed has a title and an id that is in
    the seen-file, the run makes no delivery attempt, does not wait,
    changes no file and ends with a completion log that counts 0. *)
Theorem rerun_delivers_nothing (E : environment) (k : feed_kind) (w : world)
    (entries : list entry) :
  feedparser_parse E (rss_url k) = Some entries ->
  entries <> [] ->
  Forall (seen_in k (fst (load_all_sent_posts (sent_file k) w)))
         (firstn MAX_ENTRIES_TO_CHECK entries) ->
  sends (trace (check_and_send_feed E k w)) = sends (trace w)
  /\ sleeps (trace (check_and_send_feed E k w)) = sleeps (trace w)
  /\ sent_files (check_and_send_feed E k w) = sent_files w
  /\ article_files (check_and_send_feed E k w) = article_files w
  /\ last (trace (check_and_send_feed E k w))
     = Some (Log INFO (CheckCompleted k 0)).
Proof.
  intros Hfeed Hne Hall. unfold check_and_send_feed. rewrite Hfeed.
  destruct entries as [|e0 entries]; [congruence|].
  assert (Hw : snd (load_all_sent_posts (sent_file k) w) = w).
  { cbn [firstn MAX_ENTRIES_TO_CHECK] in Hall.
    apply Forall_cons in Hall as [(post_id & title & _ & _ & Hin) _].
    revert Hin. unfold load_all_sent_posts.
    destruct (sent_files w !! sent_file k) as [[|c]|]; simpl;
      try (intros H; now apply elem_of_empty in H). reflexivity. }
  destruct (load_all_sent_posts (sent_file k) w) as [sent_posts w1].
  cbn [fst snd] in Hall, Hw. subst w1.
  destruct (process_entries_all_seen E k
              (firstn MAX_ENTRIES_TO_CHECK (e0 :: entries)) 0
              (mk_loop_state (emit (Fetch (rss_url k)) w) sent_posts 0) Hall)
    as (logs & Hl & _ & Heq).
  rewrite Heq. cbn [with_world ls_world ls_found log emit trace sent_files
                    article_files].
  rewrite <- !app_assoc.
  rewrite !sends_app, !sleeps_app.
  rewrite (only_logs_sends _ Hl), (only_logs_sleeps _ Hl). simpl.
  rewrite !app_nil_r. repeat split; try reflexivity.
  rewrite last_app, app_comm_cons, last_snoc. reflexivity.
Qed.

Lemma rerun_delivers_nothing_witness :
  let feed := [news "a" "First"; news "b" "Second"] in
  sends (trace (check_and_send_feed (sample_env feed (fun _ => true))
                                    Crunchyroll seen_world)) = [].
Proof.
  intros feed.
  destruct (rerun_delivers_nothing (sample_env feed (fun _ => true))
              Crunchyroll seen_world feed) as (H & _).
  - reflexivity.
  - discriminate.
  - constructor; [|constructor; [|constructor]].
    + exists (py "a"), (py "First").
      split; [reflexivity|]. split; [reflexivity|].
      apply (bool_decide_unpack _). vm_compute. exact I.
    + exists (py "b"), (py "Second").
      split; [reflexivity|]. split; [reflexivity|].
      apply (bool_decide_unpack _). vm_compute. exact I.
  - exact H.
Defined.

End RunFacts.

(** ** Single iterations *)

Module StepFacts.

Import BotFacts ProcessorFacts SeenFileFacts RecordFileFacts RunFacts.

(** The inner [try] block touches no record file and no seen-file but the
    one of its feed. *)
Lemma deliver_files E k i post_id img cap st :
  article_files (ls_world (deliver E k i post_id img cap st))
  = article_files (ls_world st)
  /\ (forall file, sent_file k <> file ->
        sent_files (ls_world (deliver E k i post_id img cap st)) !! file
        = sent_files (ls_world st) !! file).
Proof.
  unfold deliver.
  destruct (prepare_delivery_frame E img cap (ls_world st))
    as (logs & _ & _ & Hs & Ha).
  destruct (prepare_delivery E img cap (ls_world st)) as [d w1].
  cbn [snd] in Hs, Ha.
  destruct (bot_send E (trace w1) d).
  - destruct (save_sent_post_frame post_id (sent_file k)
                (emit (Send d true) w1)) as (logsC & _ & _ & HaC).
    destruct (i <? MAX_ENTRIES_TO_CHECK - 1)%nat;
      cbn [ls_world emit article_files sent_files];
      (split; [rewrite HaC; exact Ha|]);
      intros file Hne; rewrite save_sent_post_other by exact Hne;
      cbn [emit sent_files]; now rewrite Hs.
  - cbn [with_world ls_world log emit article_files sent_files].
    split; [exact Ha|]. intros file _. now rewrite Hs.
Qed.

(** One iteration touches the two files of its feed only. *)
Lemma process_entry_files E k i e st :
  (forall file, sent_file k <> file ->
     sent_files (ls_world (state_of (process_entry E k i e st))) !! file
     = sent_files (ls_world st) !! file)
  /\ (forall file, articles_file k <> file ->
        article_files (ls_world (state_of (process_entry E k i e st))) !! file
        = article_files (ls_world st) !! file).
Proof.
  unfold process_entry.
  destruct (entry_key k e) as [post_id|]; [|split; reflexivity].
  destruct (e_title e) as [title|]; [|split; reflexivity].
  destruct (bool_decide (post_id ∈ ls_sent st)); [split; reflexivity|].
  cbv zeta.
  destruct (normalize E k e post_id title _) as [[[a img] cap]|];
    [|split; reflexivity].
  cbn [state_of].
  set (w0 := ls_world (found_state k title st)).
  destruct (deliver_files E k i post_id img cap
              (with_world (found_state k title st)
                          (save_article a (articles_file k) w0)))
    as [Ha Hs].
  destruct (save_article_frame a (articles_file k) w0) as (logs & _ & _ & HsA).
  cbn [with_world ls_world] in Ha, Hs. split.
  - intros file Hne. rewrite Hs by exact Hne. now rewrite HsA.
  - intros file Hne. rewrite Ha. now rewrite save_article_other.
Qed.

Lemma process_entries_files E k es : forall i st,
  (forall file, sent_file k <> file ->
     sent_files (ls_world (fst (process_entries E k i es st))) !! file
     = sent_files (ls_world st) !! file)
  /\ (forall file, articles_file k <> file ->
        article_files (ls_world (fst (process_entries E k i es st))) !! file
        = article_files (ls_world st) !! file).
Proof.
  induction es as [|e es IH]; intros i st; cbn [process_entries].
  - split; reflexivity.
  - destruct (process_entry_files E k i e st) as [Hs Ha].
    destruct (process_entry E k i e st) as [st1 | st1];
      cbn [state_of] in Hs, Ha.
    + destruct (IH (S i) st1) as [Hs' Ha']. split; intros file Hne.
      * now rewrite Hs', Hs.
      * now rewrite Ha', Ha.
    + split; assumption.
Qed.

(** X9. A processor keeps to the files of its feed: a run of the news
    processor leaves the seen-file and the record file of the videos as
    they are, and the other way round; no other file is touched either. *)
Theorem processor_keeps_to_its_files (E : environment) (k : feed_kind)
    (w : world) :
  (forall file, sent_file k <> file ->
     sent_files (check_and_send_feed E k w) !! file = sent_files w !! file)
  /\ (forall file, articles_file k <> file ->
        article_files (check_and_send_feed E k w) !! file
        = article_files w !! file).
Proof.
  unfold check_and_send_feed.
  destruct (load_all_sent_posts_frame (sent_file k) w)
    as (logs & _ & _ & Ha0 & Hs0).
  destruct (load_all_sent_posts (sent_file k) w) as [sent_posts w1].
  cbn [snd] in Ha0, Hs0.
  destruct (feedparser_parse E (rss_url k)) as [[|e0 entries]|];
    cbn [log emit sent_files article_files];
    try (split; [exact Hs0 | intros file _; now rewrite Ha0]).
  destruct (process_entries_files E k
              (firstn MAX_ENTRIES_TO_CHECK (e0 :: entries)) 0
              (mk_loop_state (emit (Fetch (rss_url k)) w1) sent_posts 0))
    as [Hs Ha].
  destruct (process_entries E k 0 _ _) as [st [|]];
    cbn [fst ls_world emit sent_files article_files log] in *;
    (split; intros file Hne;
     [rewrite Hs by exact Hne; now apply Hs0
     | rewrite Ha by exact Hne; now rewrite Ha0]).
Qed.

Lemma processor_keeps_to_its_files_witness :
  sent_files (check_and_send_feed (sample_env [news "c" "Third"] (fun _ => true))
                                  YouTube seen_world)
  !! CRUNCHYROLL_SENT_FILE
  = sent_files seen_world !! CRUNCHYROLL_SENT_FILE.
Proof.
  destruct (processor_keeps_to_its_files
              (sample_env [news "c" "Third"] (fun _ => true)) YouTube
              seen_world) as [Hs _].
  apply Hs. discriminate.
Defined.


(** An iteration that holds a successful delivery is an iteration on a new
    entry whose [try] block ran to its end. *)
Lemma delivery_succeeded_inv E k i e st d :
  Send d true ∈ step_events st (state_of (process_entry E k i e st)) ->
  exists post_id title a img cap st_saved w1,
    entry_key k e = Some post_id /\ e_title e = Some title
    /\ (post_id ∉ ls_sent st)
    /\ a_id a = Some post_id
    /\ st_saved
       = with_world (found_state k title st)
           (save_article a (articles_file k)
                         (ls_world (found_state k title st)))
    /\ prepare_delivery E img cap (ls_world st_saved) = (d, w1)
    /\ bot_send E (trace w1) d = true
    /\ process_entry E k i e st
       = Next (mk_loop_state
                 (let w3 := save_sent_post post_id (sent_file k)
                                           (emit (Send d true) w1) in
                  if (i <? MAX_ENTRIES_TO_CHECK - 1)%nat
                  then emit (Sleep 2) w3 else w3)
                 ({[post_id]} ∪ ls_sent st) (S (ls_found st))).
Proof.
  intros Hin.
  destruct (process_entry_case E k i e st)
    as [Hm | post_id title Hid Ht Hseen | post_id title Hid Ht Hnew Hn
        | post_id title a img cap d0 logs0 logs st_saved st'
            Hid Ht Hnew Hn Hsaved Hst' Htr0 Htr Hl0 Hl Hsf Haf Hsent
        | post_id title a img cap d0 logs0 logs logs' st_saved st'
            Hid Ht Hnew Hn Hsaved Hst' Htr0 Htr Hl0 Hl Hl' Hsent];
    cbn [state_of] in Hin.
  - rewrite step_events_refl in Hin. now apply elem_of_nil in Hin.
  - rewrite (step_events_app st _ [Log INFO (AlreadySent k title)]) in Hin
      by reflexivity.
    apply list_elem_of_singleton in Hin. discriminate.
  - rewrite (step_events_app st _ [Log INFO (NewFound k title)]) in Hin
      by reflexivity.
    apply list_elem_of_singleton in Hin. discriminate.
  - rewrite (step_events_app st st'
               (Log INFO (NewFound k title)
                  :: logs0 ++ logs ++ [Send d0 false; Log ERROR (FailedToSend k)]))
      in Hin
      by (rewrite Htr, Htr0, <- app_assoc; reflexivity).
    exfalso.
    rewrite elem_of_cons, !elem_of_app, elem_of_cons, list_elem_of_singleton
      in Hin.
    destruct Hin as [H | [H | [H | [H | H]]]]; try discriminate;
      now apply only_logs_no_send in H.
  - rewrite (step_events_app st st'
               (Log INFO (NewFound k title)
                  :: logs0 ++ logs ++ Send d0 true :: logs' ++ delay_after i))
      in Hin
      by (rewrite Htr, Htr0, <- app_assoc; reflexivity).
    assert (d0 = d) as ->.
    { rewrite elem_of_cons, !elem_of_app, elem_of_cons, elem_of_app in Hin.
      destruct Hin as [H | [H | [H | [H | [H | H]]]]]; try discriminate.
      - now apply only_logs_no_send in H.
      - now apply only_logs_no_send in H.
      - congruence.
      - now apply only_logs_no_send in H.
      - unfold delay_after in H. destruct (_ <? _)%nat.
        + apply list_elem_of_singleton in H. discriminate.
        + now apply elem_of_nil in H. }
    pose proof (deliver_failed E k i post_id img cap st_saved) as Hfail.
    pose proof (deliver_sent E k i post_id img cap st_saved) as Hok.
    destruct (prepare_delivery_frame E img cap (ls_world st_saved))
      as (logsB & HtrB & HlB & _).
    destruct (prepare_delivery E img cap (ls_world st_saved)) as [d1 w1] eqn:Hp.
    cbn [snd] in HtrB.
    destruct (bot_send E (trace w1) d1) eqn:Hsend.
    + specialize (Hok eq_refl). rewrite Hok in Hst'.
      assert (d1 = d) as ->.
      { rewrite Hst' in Htr. cbn [ls_world] in Htr.
        destruct (save_sent_post_frame post_id (sent_file k)
                    (emit (Send d1 true) w1)) as (logsC & HtrC & HlC & _).
        assert (Hs : sends (trace (ls_world st_saved) ++ logsB
                              ++ Send d1 true :: logsC ++ delay_after i)
                     = sends (trace (ls_world st_saved) ++ logs
                                ++ Send d true :: logs' ++ delay_after i)).
        { rewrite <- Htr. f_equal.
          destruct (i <? MAX_ENTRIES_TO_CHECK - 1)%nat eqn:Hi;
            unfold delay_after; rewrite Hi;
            cbn [emit trace]; rewrite HtrC; cbn [emit trace]; rewrite HtrB;
            rewrite <- ?app_assoc; cbn [app]; rewrite ?app_nil_r;
            reflexivity. }
        change (Send d1 true :: logsC ++ delay_after i)
          with ([Send d1 true] ++ logsC ++ delay_after i) in Hs.
        change (Send d true :: logs' ++ delay_after i)
          with ([Send d true] ++ logs' ++ delay_after i) in Hs.
        rewrite !sends_app in Hs.
        rewrite (only_logs_sends _ HlB), (only_logs_sends _ HlC),
          (only_logs_sends _ Hl), (only_logs_sends _ Hl'),
          sends_delay_after in Hs.
        apply app_inv_head in Hs. simpl in Hs. congruence. }
      exists post_id, title, a, img, cap, st_saved, w1.
      pose proof (normalize_id E _ _ _ _ _ _ _ _ Hn) as Ha.
      repeat (split; [solve [auto] |]).
      rewrite Hst'. subst st_saved. reflexivity.
    + exfalso. specialize (Hfail eq_refl). rewrite Hfail in Hst'.
      rewrite Hst' in Htr. cbn [with_world ls_world log emit trace] in Htr.
      rewrite HtrB in Htr.
      assert (Hs : sends (((trace (ls_world st_saved) ++ logsB)
                             ++ [Send d1 false])
                            ++ [Log ERROR (FailedToSend k)])
                   = sends (trace (ls_world st_saved) ++ logs
                              ++ [Send d true] ++ logs' ++ delay_after i))
        by (rewrite Htr; reflexivity).
      rewrite !sends_app in Hs.
      rewrite (only_logs_sends _ HlB), (only_logs_sends _ Hl),
        (only_logs_sends _ Hl'), sends_delay_after in Hs.
      rewrite <- !app_assoc in Hs.
      apply app_inv_head in Hs. simpl in Hs. discriminate.
Qed.


(** X10. No duplicate within a batch. After an iteration that delivered an
    entry, the id of that entry is in the in-memory set and stays there:
    any entry with the same id and a title that the loop meets later in
    the same run is logged as already sent and is not delivered again. *)
Theorem delivered_id_is_skipped_later (E : environment) (k : feed_kind)
    (i : nat) (e : entry) (st : loop_state) (d : delivery) :
  Send d true ∈ step_events st (state_of (process_entry E k i e st)) ->
  exists post_id,
    entry_key k e = Some post_id
    /\ post_id ∈ ls_sent (state_of (process_entry E k i e st))
    /\ forall j pre i2 e2 title,
         entry_key k e2 = Some post_id -> e_title e2 = Some title ->
         process_entry E k i2 e2
           (fst (process_entries E k j pre
                   (state_of (process_entry E k i e st))))
         = Next (with_world
                   (fst (process_entries E k j pre
                           (state_of (process_entry E k i e st))))
                   (log INFO (AlreadySent k title)
                        (ls_world
                           (fst (process_entries E k j pre
                                   (state_of (process_entry E k i e st))))))).
Proof.
  intros Hin.
  destruct (delivery_succeeded_inv E k i e st d Hin)
    as (post_id & title & a & img & cap & st_saved & w1
        & Hid & Ht & Hnew & Ha & Hsaved & Hp & Hsend & Hstep).
  exists post_id. split; [exact Hid|].
  assert (Hseen : post_id ∈ ls_sent (state_of (process_entry E k i e st))).
  { rewrite Hstep. cbn [state_of ls_sent]. apply elem_of_union. left.
    now apply elem_of_singleton. }
  split; [exact Hseen|].
  intros j pre i2 e2 title2 Hid2 Ht2.
  pose proof (process_entries_keeps_seen E k j pre _ post_id Hseen) as Hlater.
  unfold process_entry at 1. rewrite Hid2, Ht2.
  rewrite bool_decide_eq_true_2 by exact Hlater. reflexivity.
Qed.

Lemma delivered_id_is_skipped_later_witness :
  let E := sample_env [] (fun _ => true) in
  let st := start empty_world [] in
  let st1 := state_of (process_entry E Crunchyroll 0 (news "c" "Third") st) in
  process_entry E Crunchyroll 1 (news "c" "Again") st1
  = Next (with_world st1
            (log INFO (AlreadySent Crunchyroll (py "Again")) (ls_world st1))).
Proof.
  intros E st st1.
  destruct (delivered_id_is_skipped_later E Crunchyroll 0 (news "c" "Third")
              st (SendMessage
                    (caption_of Crunchyroll (py "Third") (py "text") None)))
    as (post_id & Hid & _ & Hlater).
  - vm_compute. repeat constructor.
  - injection Hid as <-.
    apply (Hlater 1%nat [] 1%nat (news "c" "Again") (py "Again")); reflexivity.
Defined.



(** *** The attributes an entry needs *)

Lemma thumbnail_url_none e : thumbnail_url e = None <-> thumbnail_without_url e.
Proof.
  unfold thumbnail_url, thumbnail_without_url.
  destruct (e_media_thumbnail e) as [[|[u|] rest]|]; simpl; split;
    try discriminate; try (intros [r H]; discriminate).
  - intros _. now exists rest.
  - reflexivity.
Qed.

Lemma image_url_of_none E k e :
  image_url_of E k e = None <-> thumbnail_without_url e.
Proof.
  rewrite <- thumbnail_url_none. unfold image_url_of.
  destruct (thumbnail_url e) as [image_url|]; simpl; [|tauto].
  split; [|discriminate].
  destruct k; [|discriminate].
  destruct (negb (truthy_opt image_url)); [|discriminate].
  destruct (e_description e) as [desc|]; [|discriminate].
  destruct (find_img_src E desc); discriminate.
Qed.

Lemma normalize_none E k e post_id title tr :
  normalize E k e post_id title tr = None
  <-> thumbnail_without_url e \/ e_description e = None
      \/ (k = YouTube /\ e_link e = None).
Proof.
  rewrite <- (image_url_of_none E k e). unfold normalize, url_of.
  destruct k; destruct (image_url_of E _ e) as [image_url|]; simpl;
    destruct (e_description e) as [desc|]; simpl;
    destruct (e_link e) as [link|]; simpl;
    intuition (try discriminate; try congruence).
Qed.

(** X12. The attributes an entry needs. An iteration leaves the loop
    exactly when the id or the title of the entry is missing or, for an
    entry whose id is not yet seen, when its first thumbnail has no URL,
    its description is missing or, for a video, its link is missing. An
    entry that is already seen needs its id and title only. *)
Theorem iteration_raises_iff (E : environment) (k : feed_kind) (i : nat)
    (e : entry) (st : loop_state) :
  (exists st', process_entry E k i e st = Raise st')
  <-> entry_key k e = None \/ e_title e = None
      \/ (exists post_id,
            entry_key k e = Some post_id /\ (post_id ∉ ls_sent st)
            /\ (thumbnail_without_url e \/ e_description e = None
                \/ (k = YouTube /\ e_link e = None))).
Proof.
  unfold process_entry.
  destruct (entry_key k e) as [post_id|] eqn:Hid;
    [|split; [now left | intros _; now exists st]].
  destruct (e_title e) as [title|] eqn:Ht;
    [|split; [right; now left | intros _; now exists st]].
  destruct (bool_decide (post_id ∈ ls_sent st)) eqn:Hseen.
  - apply bool_decide_eq_true in Hseen. split.
    + intros [st' H]. discriminate.
    + intros [H | [H | (p & Hp & Hnew & _)]]; try discriminate.
      injection Hp as <-. contradiction.
  - apply bool_decide_eq_false in Hseen. cbv zeta.
    destruct (normalize E k e post_id title _) as [[[a img] cap]|] eqn:Hn.
    + split; [intros [st' H]; discriminate|].
      intros [H | [H | (p & Hp & Hnew & Hmiss)]]; try discriminate.
      rewrite (proj2 (normalize_none E k e post_id title _) Hmiss) in Hn.
      discriminate.
    + split; [|intros _; eexists; reflexivity].
      intros _. right. right. exists post_id.
      split; [reflexivity|]. split; [exact Hseen|].
      exact (proj1 (normalize_none E k e post_id title _) Hn).
Qed.

End StepFacts.

(** ** The image and the request *)

Module DeliveryFacts.

Import BotFacts.

(** The shape of the goal when one of the steps of the compositing
    fails. *)
Local Ltac logo_failure :=
  cbn [fst snd];
  split; [reflexivity|]; split; [reflexivity|]; split; [discriminate|];
  split; [|split];
  [ intros c; split;
    [ discriminate
    | intros (_ & pw' & ph' & lw0' & lh0' & H1 & H2 & H3 & H4); congruence ]
  | discriminate
  | reflexivity ].

(** X13. [add_logo_to_image] never touches a file and fails softly.
    Without logo file it returns nothing and logs nothing; otherwise it
    returns a composition exactly when the download, the opening of the
    logo, the arithmetic and the rendering all succeed, and the composition
    is then the one [logo_placement] computes; every other failure is
    logged once and gives nothing. *)
Theorem add_logo_to_image_result (E : environment) (url : pystr) (w : world) :
  sent_files (snd (add_logo_to_image E url w)) = sent_files w
  /\ article_files (snd (add_logo_to_image E url w)) = article_files w
  /\ (logo_exists E = false -> add_logo_to_image E url w = (None, w))
  /\ (forall c,
        fst (add_logo_to_image E url w) = Some c
        <-> logo_exists E = true
            /\ exists pw ph logo_width0 logo_height0,
                 fetch_image E (trace w) url = Some (pw, ph)
                 /\ open_logo E = Some (logo_width0, logo_height0)
                 /\ logo_placement url pw ph logo_width0 logo_height0 = Some c
                 /\ render E c = true)
  /\ (forall c, fst (add_logo_to_image E url w) = Some c ->
                snd (add_logo_to_image E url w) = w)
  /\ (logo_exists E = true -> fst (add_logo_to_image E url w) = None ->
      snd (add_logo_to_image E url w) = log ERROR ErrorAddingLogo w).
Proof.
  unfold add_logo_to_image.
  destruct (logo_exists E) eqn:HL; cbn [negb].
  2: { split; [reflexivity|]. split; [reflexivity|]. split; [reflexivity|].
       split; [|split].
       - intros c. split; [discriminate | intros (H & _); discriminate].
       - discriminate.
       - discriminate. }
  destruct (fetch_image E (trace w) url) as [[pw ph]|] eqn:Hf;
    cbn [mbind option_bind].
  2: { logo_failure. }
  destruct (open_logo E) as [[lw0 lh0]|] eqn:Ho; cbn [mbind option_bind].
  2: { logo_failure. }
  destruct (logo_placement url pw ph lw0 lh0) as [c0|] eqn:Hc;
    cbn [mbind option_bind].
  2: { logo_failure. }
  destruct (render E c0) eqn:Hr.
  2: { logo_failure. }
  cbn [fst snd].
  split; [reflexivity|]. split; [reflexivity|]. split; [discriminate|].
  split; [|split].
  - intros c. split.
    + intros [= <-]. split; [reflexivity|]. exists pw, ph, lw0, lh0. auto.
    + intros (_ & pw' & ph' & lw0' & lh0' & H1 & H2 & H3 & _). congruence.
  - reflexivity.
  - intros _. discriminate.
Qed.

(** X14. What is sent. The request of an iteration always carries the
    caption. It is a text message exactly when the entry has no usable
    image URL (none, or an empty one); with an image URL it is a photo,
    the composited image when [add_logo_to_image] gives one and the
    untouched URL otherwise, so that a failure to add the logo never stands
    in the way of the delivery. *)
Theorem delivery_request_shape (E : environment) (image_url : option pystr)
    (caption : pystr) (w : world) :
  delivery_text (fst (prepare_delivery E image_url caption w)) = caption
  /\ (truthy_opt image_url = false
      <-> fst (prepare_delivery E image_url caption w) = SendMessage caption)
  /\ (forall u, image_url = Some u -> truthy u = true ->
        (forall c, fst (add_logo_to_image E u w) = Some c ->
                   fst (prepare_delivery E image_url caption w)
                   = SendPhotoImage c caption)
        /\ (fst (add_logo_to_image E u w) = None ->
            fst (prepare_delivery E image_url caption w)
            = SendPhotoUrl u caption)).
Proof.
  unfold prepare_delivery.
  destruct image_url as [u|]; cbn [truthy_opt].
  2: { repeat split; try reflexivity; try discriminate. }
  destruct (truthy u) eqn:Hu.
  - destruct (add_logo_to_image E u w) as [[c0|] w'] eqn:Hlogo; cbn [fst].
    + split; [reflexivity|]. split; [split; discriminate|].
      intros u' [= <-] _. rewrite Hlogo. cbn [fst].
      split; [intros c [= <-]; reflexivity | discriminate].
    + split; [reflexivity|]. split; [split; discriminate|].
      intros u' [= <-] _. rewrite Hlogo. cbn [fst].
      split; [discriminate | reflexivity].
  - cbn [fst]. split; [reflexivity|]. split; [split; reflexivity|].
    intros u' [= <-] Hu'. congruence.
Qed.

Lemma delivery_request_shape_witness :
  fst (prepare_delivery (sample_env [] (fun _ => true)) (Some (py "http://i"))
                        (py "cap") empty_world)
  = SendPhotoUrl (py "http://i") (py "cap").
Proof.
  destruct (delivery_request_shape (sample_env [] (fun _ => true))
              (Some (py "http://i")) (py "cap") empty_world) as (_ & _ & H).
  destruct (H (py "http://i") eq_refl eq_refl) as [_ Hurl].
  apply Hurl. reflexivity.
Defined.

(** X15. Where the logo lands. From a width of 11 pixels on (and below
    [2^31]) the resized logo is at least one pixel wide and lies between
    the left and the right edge of the source image; below 10 pixels its
    width is 0. *)
Theorem logo_fits_horizontally (url : pystr) (pw ph w0 h0 : Z)
    (c : composition) :
  0 <= pw < 2 ^ 31 ->
  logo_placement url pw ph w0 h0 = Some c ->
  (11 <= pw ->
   0 < logo_w c /\ 0 <= pos_x c /\ pos_x c + logo_w c <= pw
   /\ 5 * logo_w c <= pw)
  /\ (pw < 10 -> logo_w c = 0).
Proof.
  intros Hpw. unfold logo_placement.
  rewrite LogoFacts.logo_width_floor by exact Hpw. cbn [mbind option_bind].
  destruct (logo_height _ w0 h0) as [lh|]; cbn [mbind option_bind];
    [|discriminate].
  intros [= <-]. cbn [logo_w pos_x]. unfold LOGO_MARGIN.
  destruct (Z.ltb_spec pw 600) as [Hlt | Hge].
  - pose proof (Z.div_mod pw 10 ltac:(lia)).
    pose proof (Z.mod_pos_bound pw 10 ltac:(lia)). split; lia.
  - pose proof (Z.div_mod pw 5 ltac:(lia)).
    pose proof (Z.mod_pos_bound pw 5 ltac:(lia)). split; lia.
Qed.

Lemma logo_fits_horizontally_witness :
  let c := mk_composition (py "u") 500 300 50 20 440 10 in
  logo_placement (py "u") 500 300 100 40 = Some c
  /\ 0 <= pos_x c /\ pos_x c + logo_w c <= 500.
Proof.
  intros c.
  assert (Hc : logo_placement (py "u") 500 300 100 40 = Some c)
    by (vm_compute; reflexivity).
  split; [exact Hc|].
  destruct (logo_fits_horizontally (py "u") 500 300 100 40 c) as [H _].
  - lia.
  - exact Hc.
  - destruct H as (_ & Hx & Hr & _); [lia|]. split; assumption.
Defined.

End DeliveryFacts.

(** ** Words *)

Module WordFacts.

Lemma split_from_word w : forall cur rest,
  no_space w -> split_from cur (w ++ rest) = split_from (rev w ++ cur) rest.
Proof.
  induction w as [|c w IH]; intros cur rest Hw; [reflexivity|].
  apply Forall_cons in Hw as [Hc Hw]. simpl app. cbn [split_from].
  rewrite Hc. rewrite IH by exact Hw. simpl. now rewrite <- app_assoc.
Qed.

Lemma truthy_rev (w : pystr) : w <> [] -> truthy (rev w) = true.
Proof.
  intros Hne. destruct (rev w) eqn:Hr; [|reflexivity].
  apply (f_equal (@rev N)) in Hr. rewrite rev_involutive in Hr.
  simpl in Hr. congruence.
Qed.

(** Splitting what [join] put together with single spaces gives the
    words back. *)
Lemma split_join ws :
  Forall word ws -> split (join (py " ") ws) = ws.
Proof.
  unfold split. induction 1 as [|w ws [Hne Hw] Hws IH]; [reflexivity|].
  destruct ws as [|w' ws].
  - cbn [join]. rewrite <- (app_nil_r w) at 1.
    rewrite split_from_word by exact Hw. rewrite app_nil_r. cbn [split_from].
    rewrite truthy_rev by exact Hne. now rewrite rev_involutive.
  - change (join (py " ") (w :: w' :: ws))
      with (w ++ 32%N :: join (py " ") (w' :: ws)).
    rewrite split_from_word by exact Hw. rewrite app_nil_r.
    cbn [split_from]. change (isspace 32) with true. cbv iota.
    rewrite truthy_rev by exact Hne. now rewrite rev_involutive, IH.
Qed.

Lemma tokenizes_words s ws : tokenizes s ws -> Forall word ws.
Proof.
  induction 1 as [sp Hsp | sp w rest ws Hsp Hne Hw Hb Hrest IH];
    constructor; [split|]; assumption.
Qed.

Lemma split_words s : Forall word (split s).
Proof. apply (tokenizes_words s), split_tokenizes. Qed.

Lemma join_spaces ws :
  Forall word ws ->
  Forall (fun c => isspace c = true -> c = 32%N) (join (py " ") ws).
Proof.
  induction 1 as [|w ws [_ Hw] Hws IH]; [constructor|].
  assert (Hw' : Forall (fun c => isspace c = true -> c = 32%N) w).
  { eapply Forall_impl; [exact Hw|]. cbv beta. intros c Hc Hs. congruence. }
  destruct ws as [|w' ws]; [exact Hw'|].
  change (join (py " ") (w :: w' :: ws))
    with (w ++ 32%N :: join (py " ") (w' :: ws)).
  apply Forall_app. split; [exact Hw'|]. constructor; [reflexivity | exact IH].
Qed.

Lemma slice_to_words (ws : list pystr) (n : Z) :
  Forall word ws -> Forall word (slice_to ws n).
Proof.
  intros H. unfold slice_to. destruct (n <? 0); now apply Forall_take.
Qed.

(** X16. The short description is on one line: whatever the text and the
    bound, the only white space in the result of [shorten_text] is the
    space U+0020, so the result holds no line break, no tab and none of
    the other Unicode blanks of the text. *)
Theorem shorten_text_only_plain_spaces (text : option pystr) (N : Z) :
  Forall (fun c => isspace c = true -> c = 32%N) (shorten_text text N)
  /\ no_linebreak (shorten_text text N).
Proof.
  assert (H : Forall (fun c => isspace c = true -> c = 32%N)
                     (shorten_text text N)).
  { unfold shorten_text. destruct text as [t|]; [|constructor].
    destruct (negb (truthy t)); [constructor|].
    pose proof (join_spaces _ (slice_to_words (split t) N (split_words t)))
      as Hj.
    destruct (_ >? _); [|exact Hj].
    apply Forall_app. split; [exact Hj|].
    repeat constructor; discriminate. }
  split; [exact H|].
  eapply Forall_impl; [exact H|]. cbv beta. intros c Hc.
  split; intros ->; specialize (Hc eq_refl); discriminate.
Qed.

(** X17. A text within the bound keeps all its words: when [text] has at
    most [N] words, splitting the result of [shorten_text] gives the words
    of [text] back, and shortening the result again changes nothing. *)
Theorem shorten_text_within_bound (text : pystr) (N : Z) :
  Z.of_nat (length (split text)) <= N ->
  split (shorten_text (Some text) N) = split text
  /\ shorten_text (Some (shorten_text (Some text) N)) N
     = shorten_text (Some text) N.
Proof.
  intros HN.
  assert (Hs : slice_to (split text) N = split text).
  { unfold slice_to. destruct (Z.ltb_spec N 0) as [Hneg|_]; [lia|].
    apply firstn_all2. lia. }
  assert (Hgt : forall ws : list pystr,
             Z.of_nat (length ws) <= N -> (Z.of_nat (length ws) >? N) = false).
  { intros ws Hws. destruct (Z.gtb_spec (Z.of_nat (length ws)) N); [lia|].
    reflexivity. }
  assert (H1 : forall t, split t = split text ->
             shorten_text (Some t) N
             = if negb (truthy t) then [] else join (py " ") (split text)).
  { intros t Ht. unfold shorten_text. rewrite Ht, Hs, Hgt by exact HN.
    reflexivity. }
  assert (Hsplit : split (shorten_text (Some text) N) = split text).
  { rewrite H1 by reflexivity. destruct text as [|c text']; [reflexivity|].
    cbn [truthy negb]. apply split_join, split_words. }
  split; [exact Hsplit|].
  rewrite (H1 _ Hsplit), (H1 text eq_refl).
  destruct text as [|c text']; [reflexivity|]. cbn [truthy negb].
  destruct (join (py " ") (split (c :: text'))) eqn:Hj; reflexivity.
Qed.

Lemma shorten_text_within_bound_witness :
  split (shorten_text (Some (py "  one   two ")) 25) = [py "one"; py "two"].
Proof.
  destruct (shorten_text_within_bound (py "  one   two ") 25) as [H _].
  - vm_compute. discriminate.
  - rewrite H. reflexivity.
Defined.

End WordFacts.
